(** * KoG2P: Korean grapheme-to-phone conversion (kog2p/g2p.py)

    A shallow embedding of [g2p.py] and the properties of its natural-language
    specification.  Python values are modelled as follows:

    - a [str] read by [ord] is the list of its code points ([list Z]);
    - the romanized phone strings, which only ever hold ASCII characters, are
      [list ascii];
    - an exception is an explicit [Raise] result;
    - the [while not identical] loop of [graph2prono], which has no iteration
      cap in the source, takes a pass budget and answers [OutOfFuel] when the
      budget is exhausted;
    - [re.sub] is a backtracking matcher over the fragment of Python's regular
      expressions that the file uses; patterns and replacement templates are
      kept as the strings of the source and parsed here. *)

From Stdlib Require Import ZArith Ascii String List Bool Arith Lia.
Import ListNotations.

Open Scope char_scope.
Open Scope list_scope.

(** ** Strings and results *)

Definition str := list ascii.

(** [s2l "abc"] is the phone string [abc]. *)
Definition s2l (s : string) : str := list_ascii_of_string s.

Fixpoint str_eqb (a b : str) : bool :=
  match a, b with
  | [], [] => true
  | x :: a', y :: b' => Ascii.eqb x y && str_eqb a' b'
  | _, _ => false
  end.

Inductive exn : Type :=
| IndexError          (* a list or string index out of range *)
| ReError             (* re.error: the pattern or the template is rejected *)
| UnboundLocalError.  (* a local variable read before assignment *)

Inductive result (A : Type) : Type :=
| Ok (a : A)
| Raise (e : exn)
| OutOfFuel.

Arguments Ok {A} a.
Arguments Raise {A} e.
Arguments OutOfFuel {A}.

Definition bind {A B : Type} (m : result A) (f : A -> result B) : result B :=
  match m with
  | Ok a => f a
  | Raise e => Raise e
  | OutOfFuel => OutOfFuel
  end.

Notation "x <- m ;; k" := (bind m (fun x => k))
  (at level 61, m at next level, right associativity).

Definition of_option {A : Type} (e : exn) (o : option A) : result A :=
  match o with
  | Some a => Ok a
  | None => Raise e
  end.

(** ** Regular expressions

    The fragment of Python's [re] syntax used by [g2p.py]: literals, [.],
    bracket sets of literal characters, [\W], the anchors [^] and [$],
    sequence, alternation, numbered capturing groups, greedy [?], greedy [+]
    on a one-character atom, lookahead [(?=...)] and fixed-width lookbehind
    [(?<=...)]. *)

Module Re.

(** One-character atoms. *)
Inductive cset : Type :=
| CChr (c : ascii)          (* a literal character *)
| CAny                      (* .  : anything but a newline *)
| CSet (cs : list ascii)    (* [abc] *)
| CNonWord.                 (* \W *)

Inductive regex : Type :=
| Eps
| Sym (a : cset)
| Plus (a : cset)           (* a+ , greedy *)
| Bol                       (* ^ *)
| Eol                       (* $ *)
| Seq (r1 r2 : regex)
| Alt (r1 r2 : regex)
| Opt (r : regex)           (* r? , greedy *)
| Grp (n : nat) (r : regex) (* the n-th capturing group *)
| Ahead (r : regex)         (* (?=r) *)
| Behind (r : regex).       (* (?<=r) *)

Definition newline : ascii := "010".

Definition between (lo hi c : ascii) : bool :=
  (nat_of_ascii lo <=? nat_of_ascii c)%nat && (nat_of_ascii c <=? nat_of_ascii hi)%nat.

(** [\w] on the ASCII characters: letters, digits and the underscore. *)
Definition is_word (c : ascii) : bool :=
  between "a" "z" c || between "A" "Z" c || between "0" "9" c || Ascii.eqb c "_".

Fixpoint mem_ascii (c : ascii) (cs : list ascii) : bool :=
  match cs with
  | [] => false
  | x :: cs' => Ascii.eqb c x || mem_ascii c cs'
  end.

Definition cset_mem (a : cset) (c : ascii) : bool :=
  match a with
  | CChr x => Ascii.eqb c x
  | CAny => negb (Ascii.eqb c newline)
  | CSet cs => mem_ascii c cs
  | CNonWord => negb (is_word c)
  end.

(** *** Matching

    The matcher is written in continuation-passing style, which gives
    Python's backtracking order: the first alternative, the longest
    repetition and the present optional part are tried first.  [pre] is the
    text to the left of the current position, reversed; [s] is the text to
    its right; [cp] lists the groups captured so far, the latest first. *)

Definition caps := list (nat * str).

Definition mstate : Type := (str * str * caps)%type.

Definition cont := str -> str -> caps -> option mstate.

Fixpoint plus_run (a : cset) (pre s : str) (cp : caps) (k : cont) : option mstate :=
  match s with
  | [] => None
  | c :: s' =>
      if cset_mem a c then
        match plus_run a (c :: pre) s' cp k with
        | Some m => Some m
        | None => k (c :: pre) s' cp
        end
      else None
  end.

(** The width of a pattern when all its matches have the same length, as
    Python requires of a lookbehind. *)
Fixpoint width (r : regex) : option nat :=
  match r with
  | Eps | Bol | Eol | Ahead _ | Behind _ => Some 0%nat
  | Sym _ => Some 1%nat
  | Plus _ => None
  | Seq r1 r2 =>
      match width r1, width r2 with
      | Some a, Some b => Some (a + b)%nat
      | _, _ => None
      end
  | Alt r1 r2 =>
      match width r1, width r2 with
      | Some a, Some b => if (a =? b)%nat then Some a else None
      | _, _ => None
      end
  | Opt r1 =>
      match width r1 with
      | Some 0%nat => Some 0%nat
      | _ => None
      end
  | Grp _ r1 => width r1
  end.

Definition stop : cont := fun pre s cp => Some (pre, s, cp).

Fixpoint bt (r : regex) (pre s : str) (cp : caps) (k : cont) {struct r} : option mstate :=
  match r with
  | Eps => k pre s cp
  | Sym a =>
      match s with
      | c :: s' => if cset_mem a c then k (c :: pre) s' cp else None
      | [] => None
      end
  | Plus a => plus_run a pre s cp k
  | Bol =>
      match pre with
      | [] => k pre s cp
      | _ :: _ => None
      end
  | Eol =>
      (* the end of the string, or just before a newline that ends it *)
      match s with
      | [] => k pre s cp
      | [c] => if Ascii.eqb c newline then k pre s cp else None
      | _ => None
      end
  | Seq r1 r2 => bt r1 pre s cp (fun pre' s' cp' => bt r2 pre' s' cp' k)
  | Alt r1 r2 =>
      match bt r1 pre s cp k with
      | Some m => Some m
      | None => bt r2 pre s cp k
      end
  | Opt r1 =>
      match bt r1 pre s cp k with
      | Some m => Some m
      | None => k pre s cp
      end
  | Grp n r1 =>
      bt r1 pre s cp
         (fun pre' s' cp' =>
            k pre' s' ((n, rev (firstn (length pre' - length pre) pre')) :: cp'))
  | Ahead r1 =>
      match bt r1 pre s cp stop with
      | Some (_, _, cp') => k pre s cp'
      | None => None
      end
  | Behind r1 =>
      match width r1 with
      | Some w =>
          if (w <=? length pre)%nat then
            match bt r1 (skipn w pre) (rev (firstn w pre) ++ s) cp stop with
            | Some (_, _, cp') => k pre s cp'
            | None => None
            end
          else None
      | None => None
      end
  end.

(** [find r pre s]: a match of [r] that starts at the current position; its
    length and its captures. *)
Definition find (r : regex) (pre s : str) : option (nat * caps) :=
  match bt r pre s [] stop with
  | Some (pre', _, cp) => Some ((length pre' - length pre)%nat, cp)
  | None => None
  end.

(** *** Replacement templates *)

Inductive titem : Type :=
| TLit (c : ascii)
| TRef (n : nat).           (* \n or \g<n> *)

Definition template := list titem.

Fixpoint lookup (n : nat) (cp : caps) : str :=
  match cp with
  | [] => []               (* a group that took no part in the match *)
  | (m, v) :: cp' => if (n =? m)%nat then v else lookup n cp'
  end.

Fixpoint expand (t : template) (cp : caps) : str :=
  match t with
  | [] => []
  | TLit c :: t' => c :: expand t' cp
  | TRef n :: t' => lookup n cp ++ expand t' cp
  end.

(** *** Substitution

    [sub_from r t pre s skip] replaces the leftmost non-overlapping matches of
    [r] in [s] by the expansion of [t], scanning left to right; [skip] counts
    the characters of [s] that the previous match has already consumed.  An
    empty match inserts the replacement and the scan moves one character on
    (none of the patterns of [g2p.py] matches the empty string). *)
Fixpoint sub_from (r : regex) (t : template) (pre s : str) (skip : nat) : str :=
  match s with
  | [] =>
      match skip with
      | O => match find r pre [] with
             | Some (_, cp) => expand t cp
             | None => []
             end
      | S _ => []
      end
  | c :: s' =>
      match skip with
      | S n => sub_from r t (c :: pre) s' n
      | O =>
          match find r pre s with
          | Some (O, cp) => expand t cp ++ c :: sub_from r t (c :: pre) s' 0
          | Some (S n, cp) => expand t cp ++ sub_from r t (c :: pre) s' n
          | None => c :: sub_from r t (c :: pre) s' 0
          end
      end
  end.

(** *** Parsing patterns and templates

    A recursive-descent parser for the fragment; syntax outside it is
    refused.  Groups are numbered by their opening parenthesis, from 1; [g] is
    the number of groups opened so far. *)

Definition seq (r1 r2 : regex) : regex :=
  match r2 with
  | Eps => r1
  | _ => Seq r1 r2
  end.

(** The characters of a bracket set up to its closing bracket.  Ranges,
    negation and escapes are refused; a hyphen is literal only in the last
    place. *)
Fixpoint parse_set (s : str) : option (list ascii * str) :=
  match s with
  | [] => None
  | "]" :: s' => Some ([], s')
  | "\" :: _ => None
  | "^" :: _ => None
  | "[" :: _ => None
  | "-" :: "]" :: s' => Some (["-"], s')
  | "-" :: _ => None
  | c :: s' =>
      match parse_set s' with
      | Some (cs, s'') => Some (c :: cs, s'')
      | None => None
      end
  end.

(** A quantifier after the atom [a], if there is one. *)
Definition quantified (a : regex) (s : str) : option (regex * str) :=
  match s with
  | "?" :: s' => Some (Opt a, s')
  | "+" :: s' =>
      match a with
      | Sym c => Some (Plus c, s')
      | _ => None
      end
  | "*" :: _ => None
  | "{" :: _ => None
  | _ => Some (a, s)
  end.

Fixpoint parse_alt (fuel : nat) (s : str) (g : nat) : option (regex * str * nat) :=
  match fuel with
  | O => None
  | S f =>
      match parse_seq f s g with
      | Some (r1, "|" :: s1, g1) =>
          match parse_alt f s1 g1 with
          | Some (r2, s2, g2) => Some (Alt r1 r2, s2, g2)
          | None => None
          end
      | other => other
      end
  end

with parse_seq (fuel : nat) (s : str) (g : nat) : option (regex * str * nat) :=
  match fuel with
  | O => None
  | S f =>
      match s with
      | [] => Some (Eps, s, g)
      | "|" :: _ => Some (Eps, s, g)
      | ")" :: _ => Some (Eps, s, g)
      | _ =>
          match parse_atom f s g with
          | Some (a, s1, g1) =>
              match quantified a s1 with
              | Some (a', s1') =>
                  match parse_seq f s1' g1 with
                  | Some (r, s2, g2) => Some (seq a' r, s2, g2)
                  | None => None
                  end
              | None => None
              end
          | None => None
          end
      end
  end

with parse_atom (fuel : nat) (s : str) (g : nat) : option (regex * str * nat) :=
  match fuel with
  | O => None
  | S f =>
      match s with
      | "(" :: "?" :: "=" :: s' =>
          match parse_alt f s' g with
          | Some (r, ")" :: s'', g') => Some (Ahead r, s'', g')
          | _ => None
          end
      | "(" :: "?" :: "<" :: "=" :: s' =>
          match parse_alt f s' g with
          | Some (r, ")" :: s'', g') =>
              match width r with
              | Some _ => Some (Behind r, s'', g')
              | None => None    (* look-behind requires fixed-width pattern *)
              end
          | _ => None
          end
      | "(" :: "?" :: _ => None
      | "(" :: s' =>
          match parse_alt f s' (S g) with
          | Some (r, ")" :: s'', g') => Some (Grp (S g) r, s'', g')
          | _ => None
          end
      | "[" :: s' =>
          match parse_set s' with
          | Some (c :: cs, s'') => Some (Sym (CSet (c :: cs)), s'', g)
          | _ => None
          end
      | "." :: s' => Some (Sym CAny, s', g)
      | "^" :: s' => Some (Bol, s', g)
      | "$" :: s' => Some (Eol, s', g)
      | "\" :: "W" :: s' => Some (Sym CNonWord, s', g)
      | "\" :: "-" :: s' => Some (Sym (CChr "-"), s', g)
      | "\" :: _ => None
      | "?" :: _ => None
      | "+" :: _ => None
      | "*" :: _ => None
      | "{" :: _ => None
      | "}" :: _ => None
      | "]" :: _ => None
      | c :: s' => Some (Sym (CChr c), s', g)
      | [] => None
      end
  end.

(** The pattern and the number of its groups. *)
Definition parse (p : string) : option (regex * nat) :=
  match parse_alt (4 * String.length p + 4) (s2l p) 0 with
  | Some (r, [], g) => Some (r, g)
  | _ => None
  end.

Definition digit (c : ascii) : option nat :=
  if between "0" "9" c then Some (nat_of_ascii c - 48)%nat else None.

(** A template: [\1] ... [\9] and [\g<1>] ... [\g<9>] are group references;
    other escapes, and a two-digit reference, are refused. *)
Fixpoint parse_template (s : str) : option template :=
  match s with
  | [] => Some []
  | "\" :: "g" :: "<" :: d :: ">" :: s' =>
      match digit d, parse_template s' with
      | Some n, Some t => Some (TRef n :: t)
      | _, _ => None
      end
  | "\" :: d :: s' =>
      match digit d, parse_template s' with
      | Some n, Some t =>
          match s' with
          | d' :: _ => if between "0" "9" d' then None else Some (TRef n :: t)
          | [] => Some (TRef n :: t)
          end
      | _, _ => None
      end
  | "\" :: [] => None
  | c :: s' =>
      match parse_template s' with
      | Some t => Some (TLit c :: t)
      | None => None
      end
  end.

(** A reference must name a group of the pattern ("invalid group
    reference" otherwise). *)
Definition ref_ok (ngroups : nat) (i : titem) : bool :=
  match i with
  | TLit _ => true
  | TRef n => (1 <=? n)%nat && (n <=? ngroups)%nat
  end.

Definition compile (pattern repl : string) : option (regex * template) :=
  match parse pattern, parse_template (s2l repl) with
  | Some (r, ng), Some t => if forallb (ref_ok ng) t then Some (r, t) else None
  | _, _ => None
  end.

End Re.

(** [re.sub(pattern, repl, string)] *)
Definition re_sub (pattern repl : string) (s : str) : result str :=
  match Re.compile pattern repl with
  | Some (r, t) => Ok (Re.sub_from r t [] s 0)
  | None => Raise ReError
  end.

(** ** g2p.py *)

Open Scope Z_scope.

Definition isHangul (charint : Z) : bool :=
  let hangul_init := 44032 in
  let hangul_fin := 55203 in
  (hangul_init <=? charint) && (charint <=? hangul_fin).

(**  1: whitespace;  0: hangul;  -1: non-hangul *)
Definition checkCharType (var_list : list Z) : list Z :=
  map (fun v => if v =? 32 then 1 else if isHangul v then 0 else -1) var_list.

(** Romanization tables of [graph2phone]. *)
Definition ONS : list string :=
  ["k0"; "kk"; "nn"; "t0"; "tt"; "rr"; "mm"; "p0"; "pp";
   "s0"; "ss"; "oh"; "c0"; "cc"; "ch"; "kh"; "th"; "ph"; "h0"]%string.

Definition NUC : list string :=
  ["aa"; "qq"; "ya"; "yq"; "vv"; "ee"; "yv"; "ye"; "oo"; "wa";
   "wq"; "wo"; "yo"; "uu"; "wv"; "we"; "wi"; "yu"; "xx"; "xi"; "ii"]%string.

Definition COD : list string :=
  [""; "kf"; "kk"; "ks"; "nf"; "nc"; "nh"; "tf";
   "ll"; "lk"; "lm"; "lb"; "ls"; "lt"; "lp"; "lh";
   "mf"; "pf"; "ps"; "s0"; "ss"; "oh"; "c0"; "ch";
   "kh"; "th"; "ph"; "h0"]%string.

(** [l[i]] on a Python list: a negative index counts from the end. *)
Definition index {A : Type} (l : list A) (i : Z) : result A :=
  let n := Z.of_nat (length l) in
  if (0 <=? i) && (i <? n) then of_option IndexError (nth_error l (Z.to_nat i))
  else if (- n <=? i) && (i <? 0) then of_option IndexError (nth_error l (Z.to_nat (n + i)))
  else Raise IndexError.

(** The one-based indices [iONS], [iNUC], [iCOD] of a syllable.  On the
    integers of the Hangul range [math.floor(df / 588)] is the integer
    quotient, in Python 2 and in Python 3. *)
Definition indices (c : Z) : Z * Z * Z :=
  let base := 44032 in
  let df := c - base in
  let iONS := df / 588 + 1 in
  let iNUC := (df mod 588) / 28 + 1 in
  let iCOD := (df mod 588) mod 28 + 1 in
  (iONS, iNUC, iCOD).

(** [tmp] for a Hangul character. *)
Definition syllable (c : Z) : result str :=
  let '(iONS, iNUC, iCOD) := indices c in
  ons <- index ONS (iONS - 1) ;;
  nuc <- index NUC (iNUC - 1) ;;
  cod <- index COD (iCOD - 1) ;;
  let s1 := "-" :: s2l ons in
  let s2 := s2l nuc in
  let s3 := match s2l cod with
            | [] => []
            | _ :: _ => s2l cod
            end in
  Ok (s1 ++ s2 ++ s3).

(** What one character adds to [phones]: [ty] is its entry in [idx]. *)
Definition emit (c ty : Z) : result str :=
  if ty =? 0 then syllable c
  else if ty =? 1 then Ok ["#"]
  else Ok [].

(** One turn of the [while iElement < len(integers)] loop. *)
Definition g2p_body (phones : str) (it : Z * Z) : result str :=
  tmp <- emit (fst it) (snd it) ;;
  re_sub "-(oh)" "-" (phones ++ tmp).

Fixpoint g2p_loop (its : list (Z * Z)) (phones : str) : result str :=
  match its with
  | [] => Ok phones
  | it :: its' =>
      phones' <- g2p_body phones it ;;
      g2p_loop its' phones'
  end.

Definition graph2phone (graphs : list Z) : result str :=
  let integers := graphs in
  let idx := checkCharType integers in
  phones <- g2p_loop (combine integers idx) [] ;;
  phones <- re_sub "^oh" "" phones ;;
  phones <- re_sub "-(oh)" "" phones ;;
  phones <- re_sub "oh-" "ng-" phones ;;
  phones <- re_sub "oh([# ]|$)" "ng" phones ;;
  phones <- re_sub "(\W+)\-" "\1" phones ;;
  phones <- re_sub "\W+$" "" phones ;;
  phones <- re_sub "^\-" "" phones ;;
  Ok phones.

Fixpoint apply_rules (rules : list (string * string)) (phones : str) : result str :=
  match rules with
  | [] => Ok phones
  | (pattern, replacement) :: rules' =>
      phones' <- re_sub pattern replacement phones ;;
      apply_rules rules' phones'
  end.

Definition phone2prono (phones : str) (rule_in rule_out : list string) : result str :=
  match combine rule_in rule_out with
  | [] => Raise UnboundLocalError    (* [prono] is never assigned *)
  | rules => apply_rules rules phones
  end.

Definition at_ (phones : str) (i : nat) : result ascii :=
  of_option IndexError (nth_error phones i).

(** The [while ipos + 2 <= len(phones)] loop of [addPhoneBoundary]; every
    turn moves [ipos] at least two places on. *)
Fixpoint addPhoneBoundary_loop (fuel : nat) (phones : str) (ipos : nat) (newphones : str)
  : result str :=
  match fuel with
  | O => OutOfFuel
  | S fuel' =>
      if (ipos + 2 <=? length phones)%nat then
        c <- at_ phones ipos ;;
        let '(newphones, ipos) :=
          if Ascii.eqb c "-" then (newphones ++ [c], (ipos + 1)%nat)
          else if Ascii.eqb c " " then (newphones, (ipos + 1)%nat)
          else if Ascii.eqb c "#" then (newphones ++ [c], (ipos + 1)%nat)
          else (newphones, ipos) in
        a <- at_ phones ipos ;;
        b <- at_ phones (ipos + 1) ;;
        addPhoneBoundary_loop fuel' phones (ipos + 2) (newphones ++ [a; b; ","])
      else Ok newphones
  end.

Definition addPhoneBoundary (phones : str) : result str :=
  addPhoneBoundary_loop (S (length phones)) phones 0 [].

(** The [while ipos < len(phones)] loop of [addSpace]; every turn moves
    [ipos] two places on. *)
Fixpoint addSpace_loop (fuel : nat) (phones : str) (ipos : nat) (newphones : str)
  : result str :=
  match fuel with
  | O => OutOfFuel
  | S fuel' =>
      if (ipos <? length phones)%nat then
        a <- at_ phones ipos ;;
        b <- at_ phones (ipos + 1) ;;
        let newphones :=
          if (ipos =? 0)%nat then newphones ++ [a; b]
          else newphones ++ [" "; a; b] in
        addSpace_loop fuel' phones (ipos + 2) newphones
      else Ok newphones
  end.

Definition addSpace (phones : str) : result str :=
  addSpace_loop (S (length phones)) phones 0 [].

(** One turn of the [while not identical] loop up to the comparison: the
    rule table applied to [prono_prev], re-delimited. *)
Definition next_prono (rule_in rule_out : list string) (prono_prev : str) : result str :=
  phones <- re_sub " " "," (prono_prev ++ [","]) ;;
  prono_new <- phone2prono phones rule_in rule_out ;;
  prono_new <- re_sub "," " " prono_new ;;
  re_sub " $" "" prono_new.

Fixpoint prono_loop (fuel : nat) (rule_in rule_out : list string) (prono_prev : str)
  : result str :=
  match fuel with
  | O => OutOfFuel
  | S fuel' =>
      prono_new <- next_prono rule_in rule_out prono_prev ;;
      l <- re_sub "-" "" prono_prev ;;
      r <- re_sub "-" "" prono_new ;;
      if str_eqb l r then re_sub "-" "" prono_new
      else prono_loop fuel' rule_in rule_out prono_new
  end.

(** [fuel] bounds the number of turns of the loop. *)
Definition graph2prono (fuel : nat) (graphs : list Z) (rule_in rule_out : list string)
  : result str :=
  romanized <- graph2phone graphs ;;
  romanized_bd <- addPhoneBoundary romanized ;;
  prono <- phone2prono romanized_bd rule_in rule_out ;;
  prono <- re_sub "," " " prono ;;
  prono <- re_sub " $" "" prono ;;
  prono <- re_sub "#" "-" prono ;;
  prono <- re_sub "-+" "-" prono ;;
  prono_loop fuel rule_in rule_out prono.

(** The rule table of [runKoG2P]. *)
Definition rule_in : list string :=
  ["ii,ll,[#-]y([aeoquv]),"; "(h0,aa|t0,xx),ll,-ii,ll,"; "s0,vv,ll,-ii,kf,";
   "mm,uu,ll,-k0,oo,-k0,ii,"; "s0,ii,ll,-s0,ii,ll"; "k0,ii,-s0,xx,lk,"; "c0,vv,ll,-ya,kf,";
   "k0,xx,mf,-yo,-ii,ll,"; "lt,-ii,"; "(?<=nn,vv,)lb,(?=-(c0,(uu|vv),kf|t0,(uu|vv),ng))";
   "(?<=s0,ii,)lh,-c0,(?=xx,ng)"; "t0,aa,lk,"; "(wq|we|oo),nf,-k0,aa,c0,"; "mm,aa,tf,-h0,yv,ng,";
   "k0,vv,th,-oo,s0,"; "c0,uu,ll,-nn,vv,mf,-k0,ii,"; "h0,oo,th,-ii,-p0,uu,ll,"; "s0,aa,ks,-ii,ll,";
   "mm,qq,nf,-ii,pf,"; "kk,oo,ch,-ii,ph,"; "nn,qq,-p0,oo,kf,-ya,kf,"; "h0,aa,nf,-yv,-rr,xx,mf,";
   "nn,aa,mf,-c0,oo,nf,-yv,-p0,ii,"; "s0,ii,nf,-yv,-s0,vv,ng,"; "s0,qq,kf,-yv,nf,-ph,ii,ll,";
   "t0,aa,mf,-yo,"; "nn,uu,nf,-yo,-k0,ii,"; "vv,pf,-yo,ng,"; "s0,ii,kf,-yo,ng,-yu,";
   "nf,-yu,nf,-rr,ii,"; "(c0|s0),(aa|oo|uu),ll,-ii,(ph|p0|pf),"; "(?=(^|#))h0,aa,nf,-ii,ll,";
   "(?=(^|#))mm,aa,kf,-ii,ll,"; "mm,oo,ll,-s0,aa,ng,-s0,ii,kf,"; "oo,s0,#ii,pf,";
   "(nf|ll),-yv,-s0,vv,-s0,"; "(ng|mf|nf),-y([aeoquv]),"; "(wv|ii),ll,-y([aeoquv]),";
   "ll,-y([aeoquv]),"; "ii,ll,-c0,vv,ll,"; "(th|tf|s0),-y([aeoquv]),"; "(<=^|#)mm,aa,kf,-ii,ll";
   "k0,uu,-k0,xx,nf,-rr,yu,"; "k0,aa,ll,-([ct])0,xx,ng,"; "p0,aa,ll,-t0,oo,ng,";
   "c0,vv,ll,-t0,oo,"; "mm,aa,ll,-s0,aa,ll,"; "p0,uu,ll,-s0,"; "ii,ll,-s0,ii,";
   "p0,aa,ll,-c0,vv,nf,"; "(?<=(s0,ii,nf,|s0,aa,mf,)-)(c|k|t)0,"; "(?<=k0,ii,mf,-)p0,";
   "(?<=t0,vv,-t0,xx,mf,-)c0,"; "c0,aa,mf,-c0,aa,-rr,ii,"; "(?<=(ng|ll),-)c0,(?=uu,ll,-k0,ii)";
   "(?<=(nf|ll),-)p0,vv,pf,"; "(?<=(nf|tf),-)p0,(?=aa,-rr,aa,mf)"; "p0,aa,-rr,aa,mf,-k0,yv,ll,";
   "(?<=(mf|kf),-)p0,(?=aa,pf,)"; "(?<=nn,uu,nf,-)t0,"; "mm,aa,kf,-yv,mf,"; "p0,aa,lb,-(t|k)0,";
   "p0,aa,lb,-nn,"; "nn,vv,lb,-(t|k)0,"; "mm,(aa|vv),s0,-ii,ss,-t0,aa,";
   "mm,(aa|vv),s0,-vv,ps,-t0,aa,"; "c0,vv,c0,-vv,-mm,ii,"; "h0,vv,s0,-uu,s0,-xx,mf,";
   "k0,aa,ps,-vv,-ch,ii,"; "k0,aa,ps,-ii,ss,-nn,xx,nf,"; "c0,vv,lm,-c0,ii,"; "oo,lm,-k0,(?=[iy])";
   "k0,uu,lm,-k0,ii,-t0,aa,"; "(nn|k0|h0),aa,ll,-(p|s|c|k|t)0,"; "ch,vv,s0,-ii,nf,";
   "(?<=(mf|nf),-)ii,-p0,uu,ll,"; "(?<=(nf|ll),-)k0,oo,-rr,ii,"; "(?<=(nf|ll),-)s0,qq,";
   "(?<=(nf|ll),-)c0,qq,-c0,uu,"; "k0,ii,ll,-k0,aa,"; "mm,uu,ll,-t0,oo,ng,-ii,"; "mm,uu,ll,-c0,";
   "(?<=(nf|ll),-)p0,aa,-t0,aa,kf,"; "(?<=(nf|ll),-)s0,oo,kf,"; "(?<=s0,uu,ll,-)(c|p|t)0,";
   "k0,aa,ng,-k0,aa,"; "(?<=(ng|mf),-)t0,aa,ll,"; "t0,xx,ng,-p0,uu,ll,"; "ch,aa,ng,-s0,aa,ll,";
   "(?<=(ll|ng),-)c0,uu,ll,-k0,ii,"; "aa,nf,-k0,oo,"; "(?<=kk,yv,-aa,nf,-)(t|c)0,";
   "ii,-c0,uu,kf,-ii,-c0,uu,kf,"; "ya,-k0,xx,mf,-ya,-k0,xx,mf,"; "p0,ee,-k0,qq,s0,-ii,s0,";
   "kk,qq,s0,-ii,ph,"; "nn,aa,-mm,uu,s0,-ii,ph,"; "qq,s0,-yv,ll,"; "t0,wi,s0,-(?=[aeqiouyvwx])";
   "nn,xx,c0,-yv,-rr,xx,mf,"; "t0,ii,-k0,xx,tf,-(ii|xx|ee),";
   "(c0|ch|th|h0),ii,-xx,(c0|ch|th|h0),-(ii|xx|ee),"; "ph,ii,-xx,ph,-(ii|xx|ee),";
   "kh,ii,-xx,kh,-(ii|xx|ee),"; "l(b|p),-h0,"; "nh,-(c|k|t)0,"; "lh,-(c|k|t)0,"; "lk,-h0,";
   "nc,-h0,";
   "(k0,aa,|k0,uu,|k0,vv,|oo,|p0,aa,|nn,aa,|nn,xx,|p0,uu,|^ii,|-,ii,mm,aa,|mm,uu,|(^|-,)vv,)lk,-(t0|c0|s0),";
   "(k0,aa,|k0,uu,|k0,vv,|vv,|oo,|mm,aa,|p0,aa,|nn,aa,|nn,xx,|mm,uu,|p0,uu,|^ii,|-,ii,)lk,-k0,";
   "nh,-(k|t|c)0,"; "nh,-s0,"; "nh,-nn,"; "nh,-(?=[aeqiouyvwx])"; "lh,-nn,"; "lh,-(k|t|c)0,";
   "lh,-s0,"; "lh,-(?=[aeqiouyvwx])"; "nc,-([ktsc])0,";
   "(c0,vv,|c0,ii,|k0,uu,|t0,aa,|(^|-,)oo,|k0,oo,)lm,-([ktsc])0,";
   "(p0,aa,|tt,vv,|(^|-,)yv,|nn,vv,|(^|-,)ya,|cc,aa,)lb,-([ktsc])0,"; "h0,(aa|uu),lt,-nn,";
   "h0,(aa|uu),lt,-([ktsc])0,"; "lk,-(c|k|p|s|t)0,"; "l(b|p),-p0,"; "s0,-p0,";
   "l(b|t),-(c|k|s|t|p)0,"; "lp,-(c|k|s|t)0,"; "(c[h0]|s[s0]|t[fh]),-(c|k|s|t)0,";
   "k[fhks],-(c|k|p|s|t)0,"; "p[sfh],-(c|k|p|s|t)0,"; "(?<=(kf|kh|ks|ss|c0|ch|tf|th),-)p0,";
   "h0,-s0,"; "nh,-s0,"; "lh,-s0,"; "(ks|lk),(?=(#|$|-[ptkshcmnr]))";
   "n[ch],(?=(#|$|-[ptkshcmnr]))"; "l[bsth],(?=(#|$|-[ptkshcmnr]))"; "lm,(?=(#|$|-[ptkshcmnr]))";
   "(ps|lp),(?=(#|$|-[ptkshcmnr]))"; "([kp])s,-(?=[aeqiouyvwx])"; "ls,-(?=[aeqiouyvwx])";
   "nc,-(?=[aeqiouyvwx])"; "lk,-(?=[aeqiouyvwx])"; "lm,-(?=[aeqiouyvwx])"; "lb,-(?=[aeqiouyvwx])";
   "l([tp]),-(?=[aeqiouyvwx])"; "(?<=[pk])0,-rr,"; "(c0|ch|s0|ss|tf|nh|h0),-nn,"; "nc,-(p|t|k)0,";
   "nc,(?=-[ptkshcmnr])"; "lm,-k0,"; "lm,(?=-[ptkshcmnr])"; "k[fhks],(?=-(nn|mm),)";
   "lk,(?=-(nn|mm),)"; "p[sfh],(?=-(nn|mm),)"; "l[bp],(?=-(nn|mm),)"; "(?<=(mf|ng|pf|kf),-)rr,";
   "(c0|ch|s0|ss|tf|nh|h0),(?=-mm,)"; "ll,-(?=y)"; "(nf|ll),-rr,"; "l[lht],-nn,"; "tf,-(?=[iy])";
   "th,-(?=[iy])"; "tf,-h0,(?=[iy])"; "(p|k)f,-h0,"; "h0,-(c|k|t)0,"; "(tf|th|s0),(-|#)h0,";
   "(s0|ss|kk|p0|ph|pp|t0|th|tt|c0|ch|kh|kk|k0|mm|nn),-(?=[aeqiouyvwx])"; "nh,-(?=[aeqiouyvwx])";
   "(s0|ss|c0|ch|th),(?=-[ptkshcmnr])"; "h0,-(?=[aeqiouyvwx])"; "lh,-?(?=[aeqiouyvwx])";
   "(p|t|k)f,-?(?=[aeqiouyvwx])"; "(m|n)f,-?(?=[aeqiouyvwx])"; "(s0|ss|c0|ch|th),(?=-|#|$)";
   "(kh|kk|ks|lk),(?=-|#|$|[ptkshcmnr])"; "(ph|lp|ps),(?=-|#|$|[ptkshcmnr])";
   "(?<=[ptkshcmnr].),-(?=[aeqiouyvwx])"; "l[bhstp],(?=-|#|$|[ptkshcmnr])";
   "nh,(?=-|#|$|[ptkshcmnr])"; "(?<=[aeqiouyvwx].,)ll,-(?=[aeqiouyvwx])"; "ll,-ll,"]%string.

Definition rule_out : list string :=
  ["ii,ll,rr,y\1,"; "\1,ll,rr,ii,ll,"; "s0,vv,ll,rr,ii,kf,"; "mm,uu,ll,kk,oo,k0,ii,";
   "s0,ii,ll,s0,ii,ll"; "k0,ii,s0,xx,kf,"; "c0,vv,rr,ya,kf,"; "k0,xx,-mm,yo,-ii,ll,"; "ll,-ch,ii,";
   "pf,"; "ll,cc,"; "t0,aa,kf,"; "\1,nf,k0,aa,tf,"; "mm,aa,th,yv,ng,"; "k0,vv,t0,oo,tf,";
   "c0,uu,ll,rr,vv,mf,-kk,ii,"; "h0,oo,nf,nn,ii,p0,uu,ll,"; "s0,aa,ng,nn,ii,ll,";
   "mm,qq,nf,nn,ii,pf,"; "kk,oo,nf,nn,ii,pf,"; "nn,qq,p0,oo,ng,nn,ya,kf,";
   "h0,aa,nf,nn,yv,rr,xx,mf,"; "nn,aa,mf,c0,oo,nf,nn,yv,p0,ii,"; "s0,ii,nf,nn,yv,s0,vv,ng,";
   "s0,qq,ng,nn,yv,nf,ph,ii,ll,"; "t0,aa,mf,nn,yo,"; "nn,uu,nf,nn,yo,k0,ii,"; "vv,mf,nn,yo,ng,";
   "s0,ii,k0,yo,ng,nn,yu,"; "nf,nn,yu,ll,rr,ii,"; "\1,\2,ll,rr,ii,pf,"; "h0,aa,nf,nn,ii,ll,";
   "mm,aa,ng,nn,ii,ll,"; "mm,oo,ll,ss,aa,ng,s0,ii,kf,"; "oo,nf,nn,ii,pf,"; "\1,nn,yv,s0,vv,tf,";
   "\1,nn,y\2,"; "\1,rr,y\2,"; "ll,rr,y\1,"; "ii,ll,cc,vv,ll,"; "nf,-nn,y\2,"; "mm,aa,ng,nn,ii,ll";
   "k0,uu,k0,xx,nf,nn,yu,"; "k0,aa,ll,\1\1,xx,ng,"; "p0,aa,ll,tt,oo,ng,"; "c0,vv,ll,tt,oo,";
   "mm,aa,ll,ss,aa,ll,"; "p0,uu,ll,ss,"; "ii,ll,ss,ii,"; "p0,aa,ll,cc,vv,nf,"; "\2\2,"; "pp,";
   "cc,"; "c0,aa,mf,cc,aa,rr,ii,"; "cc,"; "pp,vv,pf,"; "pp,"; "p0,aa,rr,aa,mf,kk,yv,ll,"; "pp,";
   "tt,"; "mm,aa,ng,nn,yv,mf,"; "p0,aa,pf,\1\1,"; "p0,aa,mf,nn,"; "nn,vv,ll,\1\1,";
   "mm,\1,t0,ii,tf,tt,aa,"; "mm,\1,t0,vv,pf,tt,aa,"; "c0,vv,t0,vv,mm,ii,"; "h0,vv,t0,uu,s0,xx,mf,";
   "k0,aa,p0,vv,ch,ii,"; "k0,aa,p0,ii,nf,nn,xx,nf,"; "c0,vv,mf,cc,ii,"; "oo,mf,k0,";
   "k0,uu,mf,k0,ii,t0,aa,"; "\1,aa,ll,\2\2,"; "ch,vv,t0,ii,nf,"; "nn,ii,p0,uu,ll,"; "kk,oo,rr,ii,";
   "ss,qq,"; "cc,qq,c0,uu,"; "k0,ii,ll,kk,aa,"; "mm,uu,ll,tt,oo,ng,ii,"; "mm,uu,ll,-cc,";
   "pp,aa,t0,aa,kf,"; "ss,oo,kf,"; "\1\1,"; "k0,aa,ng,kk,aa,"; "tt,aa,ll,"; "t0,xx,ng,pp,uu,ll,";
   "ch,aa,ng,ss,aa,ll,"; "k0,aa,ng,cc,uu,ll,k0,ii,"; "aa,nf,kk,oo,"; "\1\1,";
   "ii,c0,uu,ng,nn,ii,c0,uu,kf,"; "ya,k0,xx,mf,nn,ya,k0,xx,mf,"; "p0,ee,k0,qq,nf,nn,ii,tf,";
   "kk,qq,nf,nn,ii,pf,"; "nn,aa,mm,uu,nf,nn,ii,pf,"; "qq,nf,nn,yv,ll,"; "t0,wi,nf,-nn,";
   "nn,xx,tf,nn,yv,rr,xx,mf,"; "t0,ii,k0,xx,s0,\1,"; "\1,ii,xx,s0,\3,"; "ph,ii,xx,p0,\1,";
   "kh,ii,xx,k0,\1,"; "ll,-ph,"; "nf,-\1h,"; "ll,-\1h,"; "ll,-kh,"; "nf,-ch,"; "\1kf,-\3,";
   "\1ll,-kk,"; "nf,-\1h,"; "nf,-ss,"; "nf,-nn,"; "-nn,"; "ll,-rr,"; "ll,-\1h,"; "ll,-ss,"; "-rr,";
   "nf,-\1\1,"; "\1mf,-\3\3,"; "\1ll,-\4\4,"; "h0,\1,ll,-ll,"; "h0,\1,ll,-\2\2,"; "kf,-\1\1,";
   "pf,-pp,"; "tf,-pp,"; "ll,-\2\2,"; "pf,-\1\1,"; "tf,-\2\2,"; "kf,-\1\1,"; "pf,-\1\1,"; "pp,";
   "-ss,"; "nf,-ss,"; "ll,-ss,"; "kf,"; "nf,"; "ll,"; "mf,"; "pf,"; "\1f,-ss,"; "ll,-ss,";
   "nf,-c0,"; "ll,-k0,"; "ll,-mm,"; "ll,-p0,"; "ll,-\1h,"; "f,-nn,"; "nf,-nn,"; "nf,-\1\1,"; "nf,";
   "mf,-kk,"; "mf,"; "ng,"; "ng,"; "mf,"; "mf,"; "nn,"; "nf,"; "-rr,"; "ll,-rr,"; "ll,-rr,";
   "-c0,"; "-ch,"; "-ch,"; "-\1h,"; "-\1h,"; "-th,"; "-\1,"; "-nn,"; "tf,"; "-"; "-rr,";
   "-\g<1>0,"; "-\1\1,"; "tf,"; "kf,"; "pf,"; ","; "ll,"; "nf,-"; "-rr,"; "ll,-rr,"]%string.

Definition runKoG2P (fuel : nat) (graph : list Z) : result str :=
  graph2prono fuel graph rule_in rule_out.


(** * Auxiliary definitions

    Functions and predicates on strings in which the properties are stated
    and proved. *)

(** The White_Space code points of Unicode: what "any whitespace" means in
    the specification. *)
Definition unicode_whitespace (c : Z) : bool :=
  ((9 <=? c) && (c <=? 13)) || (c =? 32) || (c =? 0x85) || (c =? 0xA0) ||
  (c =? 0x1680) || ((0x2000 <=? c) && (c <=? 0x200A)) || (c =? 0x2028) ||
  (c =? 0x2029) || (c =? 0x202F) || (c =? 0x205F) || (c =? 0x3000).

(** The table entry at a zero-based index. *)
Definition entry (table : list string) (i : Z) : str :=
  s2l (nth (Z.to_nat i) table EmptyString).

(** [s] without the occurrences of the character [x]. *)
Definition without (x : ascii) (s : str) : str :=
  filter (fun c => negb (Ascii.eqb c x)) s.

(** [k] passes of the rule table, each re-delimited as in the loop. *)
Fixpoint passes (k : nat) (rule_in rule_out : list string) (prono : str) : result str :=
  match k with
  | O => Ok prono
  | S k' =>
      prono' <- next_prono rule_in rule_out prono ;;
      passes k' rule_in rule_out prono'
  end.

(** [s] starts with the three characters [x], [y], [z]. *)
Definition starts3 (x y z : ascii) (s : str) : bool :=
  match s with
  | a :: b :: c :: _ => Ascii.eqb a x && Ascii.eqb b y && Ascii.eqb c z
  | _ => false
  end.

(** [x y z] occurs in [s]. *)
Fixpoint has3 (x y z : ascii) (s : str) : bool :=
  match s with
  | [] => false
  | _ :: t => starts3 x y z s || has3 x y z t
  end.

(** The occurrences of [x y z] replaced by [rep], from the left. *)
Fixpoint replace3 (x y z : ascii) (rep s : str) : str :=
  match s with
  | [] => []
  | a :: t =>
      match t with
      | _ :: _ :: t' =>
          if starts3 x y z s then rep ++ replace3 x y z rep t'
          else a :: replace3 x y z rep t
      | _ => a :: replace3 x y z rep t
      end
  end.

(** The pattern [-(oh)]. *)
Definition re_hyphen_oh : Re.regex :=
  Re.Seq (Re.Sym (Re.CChr "-"))
         (Re.Grp 1 (Re.Seq (Re.Sym (Re.CChr "o")) (Re.Sym (Re.CChr "h")))).

(** The pattern [oh-]. *)
Definition re_oh_hyphen : Re.regex :=
  Re.Seq (Re.Sym (Re.CChr "o")) (Re.Seq (Re.Sym (Re.CChr "h")) (Re.Sym (Re.CChr "-"))).

(** [s] is empty or opens with a boundary marker. *)
Definition opens_with_marker (s : str) : bool :=
  match s with
  | [] => true
  | c :: _ => Ascii.eqb c "#" || Ascii.eqb c "-"
  end.

(** [s] is empty, or opens with [#], or opens with a hyphen and a word
    character. *)
Definition head_ok (s : str) : bool :=
  match s with
  | [] => true
  | c :: t =>
      Ascii.eqb c "#" ||
      (Ascii.eqb c "-" && match t with
                          | w :: _ => Re.is_word w
                          | [] => false
                          end)
  end.

(** What a character adds to [phones], and what is left of it after the
    substitution that ends the turn of the loop. *)
Definition chunk (c : Z) : str :=
  if c =? 32 then ["#"]
  else if isHangul c then
    "-" :: entry ONS ((c - 0xAC00) / 588)
        ++ entry NUC (((c - 0xAC00) mod 588) / 28)
        ++ entry COD ((c - 0xAC00) mod 28)
  else [].

(** What the substitution of [-(oh)] by [-] leaves of [chunk c]. *)
Definition cchunk (c : Z) : str := replace3 "-" "o" "h" ["-"] (chunk c).

(** A check on the entries [o], [n], [d] of the three tables: what is left
    of their syllable holds no [-oh] and opens with a hyphen and a word
    character. *)
Definition syllable_ok (o n d : string) : bool :=
  let ch := "-" :: s2l o ++ s2l n ++ s2l d in
  let cc := replace3 "-" "o" "h" ["-"] ch in
  negb (has3 "-" "o" "h" cc) && head_ok cc.

(** [re.sub('^\-', '', s)] removes a hyphen that opens the string. *)
Definition drop_leading_hyphen (s : str) : str :=
  match s with
  | c :: t => if Ascii.eqb c "-" then t else s
  | [] => []
  end.

(** The pattern [oh([# ]|$)]. *)
Definition re_oh_end : Re.regex :=
  Re.Seq (Re.Sym (Re.CChr "o"))
         (Re.Seq (Re.Sym (Re.CChr "h"))
                 (Re.Grp 1 (Re.Alt (Re.Sym (Re.CSet ["#"; " "])) Re.Eol))).

(** [s] holds non-word characters only. *)
Definition all_nonword (s : str) : bool :=
  forallb (fun c => negb (Re.is_word c)) s.

(** The pattern [(\W+)\-]. *)
Definition re_nonword_hyphen : Re.regex :=
  Re.Seq (Re.Grp 1 (Re.Plus Re.CNonWord)) (Re.Sym (Re.CChr "-")).

(** The pattern [\W+$]. *)
Definition re_nonword_end : Re.regex := Re.Seq (Re.Plus Re.CNonWord) Re.Eol.

(** The continuation of [\W+] in [\W+$]. *)
Definition eol_cont : Re.cont := fun pre s cp => Re.bt Re.Eol pre s cp Re.stop.

(** [s] without the non-word characters that end it. *)
Fixpoint rstrip_nonword (s : str) : str :=
  match s with
  | [] => []
  | c :: t => if all_nonword s then [] else c :: rstrip_nonword t
  end.

(** The substitutions that follow the loop of [graph2phone]. *)
Definition after_loop (phones : str) : result str :=
  phones <- re_sub "^oh" "" phones ;;
  phones <- re_sub "-(oh)" "" phones ;;
  phones <- re_sub "oh-" "ng-" phones ;;
  phones <- re_sub "oh([# ]|$)" "ng" phones ;;
  phones <- re_sub "(\W+)\-" "\1" phones ;;
  phones <- re_sub "\W+$" "" phones ;;
  phones <- re_sub "^\-" "" phones ;;
  Ok phones.

(** The syllable boundary [-] and the word boundary [#]. *)
Definition is_marker (c : ascii) : bool := Ascii.eqb c "-" || Ascii.eqb c "#".

(** The two-character units of [s], a space before each but the first; a
    last character without a partner is an index out of range. *)
Fixpoint spaced (first : bool) (s : str) : result str :=
  match s with
  | [] => Ok []
  | [_] => Raise IndexError
  | a :: b :: t =>
      r <- spaced false t ;;
      Ok ((if first then [a; b] else [" "; a; b]) ++ r)
  end.

(** The characters that [addPhoneBoundary] looks for at the start of a
    unit. *)
Definition is_sep (c : ascii) : bool :=
  Ascii.eqb c "-" || Ascii.eqb c " " || Ascii.eqb c "#".

(** What [addPhoneBoundary] copies of such a character: a space is
    skipped. *)
Definition sep_copy (c : ascii) : str :=
  if Ascii.eqb c " " then [] else [c].

(** [addPhoneBoundary] by recursion on what is left of the string. *)
Fixpoint segment (s : str) : result str :=
  match s with
  | c :: d :: t =>
      if is_sep c then
        match t with
        | e :: t' =>
            r <- segment t' ;;
            Ok (sep_copy c ++ d :: e :: "," :: r)
        | [] => Raise IndexError
        end
      else
        r <- segment t ;;
        Ok (c :: d :: "," :: r)
  | _ => Ok []
  end.

(** The next-to-last character of [s], if there is one, is none of the
    characters [-], space and [#]. *)
Fixpoint penult_ok (s : str) : bool :=
  match s with
  | p :: t =>
      match t with
      | [_] => negb (is_sep p)
      | _ => penult_ok t
      end
  | [] => true
  end.


(** [re.sub] accepts the pattern and the template of the pair. *)
Definition compiles (rule : string * string) : bool :=
  match Re.compile (fst rule) (snd rule) with
  | Some _ => true
  | None => false
  end.

(** The phones of a syllable with onset [o], nucleus [n] and coda [d]: the
    onset [oh] is silent and the coda [oh] is [ng]. *)
Definition romanize (o n d : string) : str :=
  (if String.eqb o "oh" then [] else s2l o) ++ s2l n ++
  (if String.eqb d "oh" then ["n"; "g"] else s2l d).

(** A check on the entries [o], [n], [d] of the three tables: the
    substitutions of [graph2phone] turn their syllable into [romanize]. *)
Definition syllable_phones_ok (o n d : string) : bool :=
  match after_loop (replace3 "-" "o" "h" ["-"] ("-" :: s2l o ++ s2l n ++ s2l d)) with
  | Ok r => str_eqb r (romanize o n d)
  | _ => false
  end.

(** The parity of the run of word characters that ends the text read so
    far: [true] when its length is odd.  A non-word character may only
    follow a run of even length. *)
Definition pstep (odd : bool) (c : ascii) : option bool :=
  if Re.is_word c then Some (negb odd)
  else if odd then None else Some false.

Fixpoint prun (odd : bool) (s : str) : option bool :=
  match s with
  | [] => Some odd
  | c :: t =>
      match pstep odd c with
      | Some odd' => prun odd' t
      | None => None
      end
  end.

(** Every maximal run of word characters in [s] has an even length. *)
Definition even_runs (s : str) : bool :=
  match prun false s with
  | Some false => true
  | _ => false
  end.

(** The characters of the phone strings: lower-case letters, [0], and the
    two boundary markers. *)
Definition phone_char (c : ascii) : bool :=
  Re.between "a" "z" c || Ascii.eqb c "0" || is_marker c.

(** A check on the entries [o], [n], [d] of the three tables: what is left
    of their syllable is made of phone characters, in runs of word
    characters of even length. *)
Definition syllable_runs_ok (o n d : string) : bool :=
  let cc := replace3 "-" "o" "h" ["-"] ("-" :: s2l o ++ s2l n ++ s2l d) in
  even_runs cc && forallb phone_char cc.

(** [s] with a comma after every second word character of each run;
    [odd] tells whether the run read so far has an odd length. *)
Fixpoint commas (odd : bool) (s : str) : str :=
  match s with
  | [] => []
  | c :: t =>
      if Re.is_word c then
        if odd then c :: "," :: commas false t else c :: commas true t
      else c :: commas false t
  end.

(** No boundary marker of [s] is next to another. *)
Fixpoint lone_markers (s : str) : bool :=
  match s with
  | [] => true
  | c :: t =>
      negb (is_marker c && match t with
                           | d :: _ => is_marker d
                           | [] => false
                           end)
      && lone_markers t
  end.

(** The boundary markers of a string, read from the left: [BA] at the
    start and after a character that is no marker, [BH] after [#], [BD]
    after a hyphen. *)
Inductive bstate : Type := BA | BH | BD.

(** A [#] may follow no marker, and a hyphen no hyphen. *)
Definition bstep (st : bstate) (c : ascii) : option bstate :=
  if Ascii.eqb c "#" then
    match st with
    | BA => Some BH
    | _ => None
    end
  else if Ascii.eqb c "-" then
    match st with
    | BD => None
    | _ => Some BD
    end
  else Some BA.

Fixpoint brun (st : bstate) (s : str) : option bstate :=
  match s with
  | [] => Some st
  | c :: t =>
      match bstep st c with
      | Some st' => brun st' t
      | None => None
      end
  end.

(** [so] is [si], or the state from which every character can be read. *)
Definition bdom (si so : bstate) : Prop := so = si \/ so = BA.

(** [s] without the hyphens that follow a [#]. *)
Fixpoint drop_hash_hyphen (s : str) : str :=
  match s with
  | [] => []
  | c :: t =>
      c :: match t with
           | d :: t' =>
               if Ascii.eqb c "#" && Ascii.eqb d "-" then drop_hash_hyphen t'
               else drop_hash_hyphen t
           | [] => []
           end
  end.

(** No space of [g] follows another, once the characters that are neither
    spaces nor Hangul syllables are left out; [after_space] tells whether
    the last character kept so far is a space. *)
Fixpoint spaces_apart (after_space : bool) (g : list Z) : bool :=
  match g with
  | [] => true
  | c :: t =>
      if c =? 32 then negb after_space && spaces_apart true t
      else if isHangul c then spaces_apart false t
      else spaces_apart after_space t
  end.

(** A check on the entries [o], [n], [d] of the three tables: what is left
    of their syllable is a hyphen and then no marker. *)
Definition syllable_marks_ok (o n d : string) : bool :=
  let cc := replace3 "-" "o" "h" ["-"] ("-" :: s2l o ++ s2l n ++ s2l d) in
  match brun BA cc, brun BH cc with
  | Some BA, Some BA => true
  | _, _ => false
  end.

(** * Properties *)

(** ** The result monad *)

Lemma bind_Ok {A B : Type} (m : result A) (f : A -> result B) (b : B) :
  bind m f = Ok b -> exists a, m = Ok a /\ f a = Ok b.
Proof.
  destruct m as [a | e | ]; simpl; intros H; try discriminate.
  exists a; split; [reflexivity | exact H].
Qed.

(** ** Syllable decomposition *)

Lemma mod_588_28 (df : Z) : (df mod 588) mod 28 = df mod 28.
Proof.
  pose proof (Z.div_mod df 588 ltac:(lia)) as H1.
  pose proof (Z.mod_pos_bound df 588 ltac:(lia)) as B1.
  pose proof (Z.div_mod (df mod 588) 28 ltac:(lia)) as H2.
  pose proof (Z.mod_pos_bound (df mod 588) 28 ltac:(lia)) as B2.
  apply (Z.mod_unique df 28 (21 * (df / 588) + (df mod 588) / 28)); [left; lia | lia].
Qed.

Lemma indices_in_range (c : Z) :
  0xAC00 <= c <= 0xD7A3 ->
  let '(iONS, iNUC, iCOD) := indices c in
  iONS - 1 = (c - 0xAC00) / 588 /\
  iNUC - 1 = ((c - 0xAC00) mod 588) / 28 /\
  iCOD - 1 = (c - 0xAC00) mod 28 /\
  0 <= iONS - 1 <= 18 /\ 0 <= iNUC - 1 <= 20 /\ 0 <= iCOD - 1 <= 27.
Proof.
  intros Hc. unfold indices. cbv zeta.
  change (Z.pos 44032) with 44032.
  assert (Hdf : 0 <= c - 44032 <= 11171) by lia.
  set (df := c - 44032) in *.
  rewrite mod_588_28.
  pose proof (Z.mod_pos_bound df 588 ltac:(lia)) as B1.
  pose proof (Z.mod_pos_bound df 28 ltac:(lia)) as B2.
  assert (0 <= df / 588 <= 18).
  { split; [apply Z.div_pos; lia | ].
    apply Z.lt_succ_r. apply Z.div_lt_upper_bound; lia. }
  assert (0 <= (df mod 588) / 28 <= 20).
  { split; [apply Z.div_pos; lia | ].
    apply Z.lt_succ_r. apply Z.div_lt_upper_bound; lia. }
  repeat split; lia.
Qed.

(** C1. For a code point of the Hangul range the indices that [graph2phone]
    looks up (its one-based [iONS], [iNUC], [iCOD] less one) are the quotient
    by 588, the quotient by 28 of the remainder, and the remainder modulo 28
    of the offset from 0xAC00; they lie in [0,18], [0,20] and [0,27]; for
    0xAC00 they are (0,0,0). *)
Theorem indices_decomposition :
  (forall c : Z, 0xAC00 <= c <= 0xD7A3 ->
     let '(iONS, iNUC, iCOD) := indices c in
     iONS - 1 = (c - 0xAC00) / 588 /\
     iNUC - 1 = ((c - 0xAC00) mod 588) / 28 /\
     iCOD - 1 = (c - 0xAC00) mod 28 /\
     0 <= iONS - 1 <= 18 /\ 0 <= iNUC - 1 <= 20 /\ 0 <= iCOD - 1 <= 27) /\
  (let '(iONS, iNUC, iCOD) := indices 0xAC00 in
   (iONS - 1, iNUC - 1, iCOD - 1) = (0, 0, 0)).
Proof.
  split; [exact indices_in_range | reflexivity].
Qed.

Lemma indices_decomposition_witness :
  0xAC00 <= 0xD7A3 <= 0xD7A3 /\
  (let '(iONS, iNUC, iCOD) := indices 0xD7A3 in
   iONS - 1 = (0xD7A3 - 0xAC00) / 588 /\
   iNUC - 1 = ((0xD7A3 - 0xAC00) mod 588) / 28 /\
   iCOD - 1 = (0xD7A3 - 0xAC00) mod 28 /\
   0 <= iONS - 1 <= 18 /\ 0 <= iNUC - 1 <= 20 /\ 0 <= iCOD - 1 <= 27).
Proof.
  split; [lia | ].
  apply (proj1 indices_decomposition 0xD7A3). lia.
Defined.

(** ** The pass budget *)

Lemma prono_loop_mono (rin rout : list string) (n : nat) :
  forall (p r : str), prono_loop n rin rout p = Ok r ->
  forall m : nat, (n <= m)%nat -> prono_loop m rin rout p = Ok r.
Proof.
  induction n as [ | n IH]; intros p r H m Hm; [discriminate | ].
  destruct m as [ | m]; [lia | ].
  cbn [prono_loop] in *.
  destruct (next_prono rin rout p) as [q | e | ]; cbn [bind] in *; try discriminate.
  destruct (re_sub "-" "" p) as [l | e | ]; cbn [bind] in *; try discriminate.
  destruct (re_sub "-" "" q) as [l' | e | ]; cbn [bind] in *; try discriminate.
  destruct (str_eqb l l'); [exact H | ].
  apply IH; [exact H | lia].
Qed.

Lemma runKoG2P_mono (n : nat) (g : list Z) (r : str) :
  runKoG2P n g = Ok r -> forall m : nat, (n <= m)%nat -> runKoG2P m g = Ok r.
Proof.
  unfold runKoG2P, graph2prono. intros H m Hm.
  repeat match goal with
         | H : bind ?x _ = Ok _ |- _ =>
             let a := fresh "a" in let E := fresh "E" in
             apply bind_Ok in H; destruct H as (a & E & H); rewrite E; cbn [bind]
         end.
  eapply prono_loop_mono; eassumption.
Qed.

(** ** Classification of the characters *)

Lemma index_entry (table : list string) (i : Z) :
  0 <= i < Z.of_nat (length table) ->
  index table i = Ok (nth (Z.to_nat i) table EmptyString).
Proof.
  intros Hi. unfold index.
  replace (0 <=? i) with true by (symmetry; apply Z.leb_le; lia).
  replace (i <? Z.of_nat (length table)) with true by (symmetry; apply Z.ltb_lt; lia).
  cbn [andb].
  rewrite (nth_error_nth' table EmptyString) by lia.
  reflexivity.
Qed.

Lemma isHangul_range (c : Z) : isHangul c = true <-> 0xAC00 <= c <= 0xD7A3.
Proof.
  unfold isHangul. cbv zeta. rewrite andb_true_iff, !Z.leb_le. lia.
Qed.

Lemma syllable_entries (c : Z) :
  0xAC00 <= c <= 0xD7A3 ->
  syllable c =
    Ok ("-" :: entry ONS ((c - 0xAC00) / 588)
            ++ entry NUC (((c - 0xAC00) mod 588) / 28)
            ++ entry COD ((c - 0xAC00) mod 28)).
Proof.
  intros Hc. pose proof (indices_in_range c Hc) as H.
  unfold syllable. destruct (indices c) as [[iONS iNUC] iCOD].
  destruct H as (E1 & E2 & E3 & B1 & B2 & B3).
  rewrite E1, E2, E3 in *.
  rewrite !index_entry by (cbn [length ONS NUC COD]; lia).
  cbn [bind]. unfold entry.
  destruct (s2l (nth (Z.to_nat ((c - 0xAC00) mod 28)) COD EmptyString)); reflexivity.
Qed.

(** C5, as the specification has it, fails: a horizontal tab is whitespace
    but it is classified as a non-Hangul character and adds nothing. *)
Lemma whitespace_tab_not_boundary :
  ~ (forall c ty : Z,
       unicode_whitespace c = true -> checkCharType [c] = [ty] -> emit c ty = Ok ["#"]).
Proof.
  intros H. specialize (H 9 (-1) eq_refl eq_refl). discriminate H.
Qed.

(** C5, amended.  A code point of [0xAC00, 0xD7A3] is classified 0 and adds
    a hyphen and its onset, nucleus and coda entries; U+0020, and no other
    whitespace, is classified 1 and adds the word boundary [#]; every other
    code point is classified -1 and adds nothing. *)
Theorem classification (c : Z) :
  (0xAC00 <= c <= 0xD7A3 ->
     checkCharType [c] = [0] /\
     emit c 0 = Ok ("-" :: entry ONS ((c - 0xAC00) / 588)
                        ++ entry NUC (((c - 0xAC00) mod 588) / 28)
                        ++ entry COD ((c - 0xAC00) mod 28))) /\
  (c = 32 -> checkCharType [c] = [1] /\ emit c 1 = Ok ["#"]) /\
  (c <> 32 -> ~ (0xAC00 <= c <= 0xD7A3) ->
     checkCharType [c] = [-1] /\ emit c (-1) = Ok []).
Proof.
  repeat split.
  - unfold checkCharType. cbn [map].
    replace (c =? 32) with false by (symmetry; apply Z.eqb_neq; lia).
    replace (isHangul c) with true by (symmetry; apply isHangul_range; exact H).
    reflexivity.
  - unfold emit. cbn [Z.eqb]. apply syllable_entries. exact H.
  - subst c. reflexivity.
  - unfold checkCharType. cbn [map].
    replace (c =? 32) with false by (symmetry; apply Z.eqb_neq; lia).
    destruct (isHangul c) eqn:E; [ | reflexivity].
    apply isHangul_range in E. contradiction.
Qed.

Lemma classification_witness :
  (0xAC00 <= 0xD55C <= 0xD7A3 /\
   checkCharType [0xD55C] = [0] /\ emit 0xD55C 0 = Ok (s2l "-h0aanf")) /\
  (checkCharType [32] = [1] /\ emit 32 1 = Ok ["#"]) /\
  (9 <> 32 /\ ~ (0xAC00 <= 9 <= 0xD7A3) /\
   checkCharType [9] = [-1] /\ emit 9 (-1) = Ok []).
Proof.
  split; [ | split].
  - split; [lia | ]. apply (proj1 (classification 0xD55C)). lia.
  - apply (proj1 (proj2 (classification 32))). reflexivity.
  - split; [lia | ]. split; [lia | ].
    apply (proj2 (proj2 (classification 9))); lia.
Defined.

(** ** Evaluations *)

(** C6: the word boundary after a coda [oh] is lost.  [0xAC15 0x20 0xAC00]
    is a syllable with coda [oh], a space and a second syllable; the [#] of
    the space is consumed by the replacement of [oh([# ]|$)] by [ng].  With
    any other coda the boundary is kept. *)
Theorem coda_oh_loses_word_boundary :
  graph2phone [0xAC15; 32; 0xAC00] = Ok (s2l "k0aang-k0aa") /\
  graph2phone [0xAC01; 32; 0xAC00] = Ok (s2l "k0aakf#k0aa") /\
  graph2phone [0xAC15; 0xAC00] = Ok (s2l "k0aang-k0aa").
Proof. vm_compute. repeat split. Qed.

(** The empty string is converted to the empty string, whatever the pass
    budget, as long as one pass is allowed. *)
Lemma runKoG2P_nil (n : nat) : runKoG2P (S n) [] = Ok [].
Proof. apply (runKoG2P_mono 1); [vm_compute; reflexivity | lia]. Qed.

(** C4: three spaces between two syllables leave two adjacent spaces in the
    returned string; one space between them leaves one. *)
Theorem three_spaces_double_space (n : nat) :
  runKoG2P (S n) [0xAC00; 32; 32; 32; 0xAC00] = Ok (s2l "k0 aa  k0 aa") /\
  runKoG2P (S n) [0xAC00; 32; 0xAC00] = Ok (s2l "k0 aa k0 aa").
Proof.
  split.
  - apply (runKoG2P_mono 1); [vm_compute; reflexivity | lia].
  - apply (runKoG2P_mono 1); [vm_compute; reflexivity | lia].
Qed.

(** The usage line of the file, [python g2p.py] on the code points
    C2A4 BB3C 20 C5EC B35F C9F8 20 C0AC B78C. *)
Example usage_line :
  runKoG2P 2
    [0xC2A4; 0xBB3C; 32; 0xC5EC; 0xB35F; 0xC9F8; 32; 0xC0AC; 0xB78C] =
  Ok (s2l "s0 xx mm uu ll rr yv t0 vv ll cc qq s0 aa rr aa mf").
Proof. vm_compute. reflexivity. Qed.

(** The end of the string in [addPhoneBoundary]: a lone last character and
    a marker in the last position are left out; a marker followed by a
    single last character makes the loop read past the end of the string. *)
Example addPhoneBoundary_last_units :
  addPhoneBoundary (s2l "k0a") = Ok (s2l "k0,") /\
  addPhoneBoundary (s2l "k0#") = Ok (s2l "k0,") /\
  addPhoneBoundary (s2l "-a") = Raise IndexError /\
  addPhoneBoundary (s2l "k0aa#k") = Raise IndexError.
Proof. vm_compute. repeat split. Qed.

(** ** The loop of [graph2prono] *)

Lemma str_eqb_eq (a b : str) : str_eqb a b = true <-> a = b.
Proof.
  revert b. induction a as [ | x a IH]; intros [ | y b]; cbn [str_eqb];
    try (split; [discriminate | discriminate]); [split; reflexivity | ].
  rewrite andb_true_iff, Ascii.eqb_eq, IH.
  split; [intros [-> ->]; reflexivity | intros H; injection H; auto].
Qed.

Lemma sub_from_hyphen_empty (s pre : str) :
  Re.sub_from (Re.Sym (Re.CChr "-")) [] pre s 0 = without "-" s.
Proof.
  revert pre. induction s as [ | c s IH]; intros pre; [reflexivity | ].
  unfold without. cbn [Re.sub_from filter]. unfold Re.find.
  cbn [Re.bt Re.cset_mem].
  destruct (Ascii.eqb c "-"); cbn [negb]; unfold Re.stop.
  - replace (length (c :: pre) - length pre)%nat with 1%nat by (cbn [length]; lia).
    cbn [Re.expand app]. apply IH.
  - f_equal. apply IH.
Qed.

(** [re.sub('-', '', s)] removes every hyphen. *)
Lemma re_sub_hyphen_empty (s : str) : re_sub "-" "" s = Ok (without "-" s).
Proof.
  change (re_sub "-" "" s) with (Ok (Re.sub_from (Re.Sym (Re.CChr "-")) [] [] s 0)).
  rewrite sub_from_hyphen_empty. reflexivity.
Qed.

(** C2. The loop returns [r] exactly when there is a first pass, within the
    budget, whose result [new] equals its argument [prev] once the hyphens
    are removed from both; [r] is [new] without its hyphens. *)
Theorem prono_loop_stops_exactly (rin rout : list string) (fuel : nat) (p r : str) :
  prono_loop fuel rin rout p = Ok r <->
  exists (k : nat) (prev new : str),
    (k < fuel)%nat /\
    passes k rin rout p = Ok prev /\
    next_prono rin rout prev = Ok new /\
    without "-" prev = without "-" new /\
    r = without "-" new /\
    (forall (j : nat) (a b : str),
        (j < k)%nat -> passes j rin rout p = Ok a -> next_prono rin rout a = Ok b ->
        without "-" a <> without "-" b).
Proof.
  revert p. induction fuel as [ | fuel IH]; intros p.
  - split; [discriminate | intros (k & _ & _ & Hk & _); lia].
  - cbn [prono_loop]. split.
    + destruct (next_prono rin rout p) as [q | e | ] eqn:Eq; cbn [bind]; try discriminate.
      rewrite !re_sub_hyphen_empty. cbn [bind].
      destruct (str_eqb (without "-" p) (without "-" q)) eqn:Es.
      * rewrite ?re_sub_hyphen_empty. intros [= <-].
        apply str_eqb_eq in Es.
        exists 0%nat, p, q. repeat split; auto; try lia.
      * intros H. apply IH in H. destruct H as (k & prev & new & Hk & Hp & Hn & He & Hr & Hall).
        exists (S k), prev, new. repeat split; auto; try lia.
        { cbn [passes]. rewrite Eq. exact Hp. }
        intros [ | j] a b Hj Ha Hb.
        { cbn [passes] in Ha. injection Ha as <-. rewrite Eq in Hb. injection Hb as <-.
          intros E. apply str_eqb_eq in E. congruence. }
        cbn [passes] in Ha. rewrite Eq in Ha. cbn [bind] in Ha.
        apply (Hall j a b); auto; lia.
    + intros (k & prev & new & Hk & Hp & Hn & He & Hr & Hall).
      destruct k as [ | k].
      * cbn [passes] in Hp. injection Hp as <-. rewrite Hn. cbn [bind].
        rewrite !re_sub_hyphen_empty. cbn [bind].
        replace (str_eqb (without "-" p) (without "-" new)) with true
          by (symmetry; apply str_eqb_eq; exact He).
        rewrite ?re_sub_hyphen_empty, Hr. reflexivity.
      * cbn [passes] in Hp.
        destruct (next_prono rin rout p) as [q | e | ] eqn:Eq; cbn [bind] in Hp; try discriminate.
        cbn [bind]. rewrite !re_sub_hyphen_empty. cbn [bind].
        assert (Hd : without "-" p <> without "-" q).
        { apply (Hall 0%nat p q); [lia | reflexivity | exact Eq]. }
        destruct (str_eqb (without "-" p) (without "-" q)) eqn:Es;
          [apply str_eqb_eq in Es; contradiction | ].
        apply IH. exists k, prev, new. repeat split; auto; try lia.
        intros j a b Hj Ha Hb. apply (Hall (S j) a b); [lia | | exact Hb].
        cbn [passes]. rewrite Eq. exact Ha.
Qed.

(** ** [re.sub] on the patterns of [graph2phone]

    Each substitution of [graph2phone] is related to a plain function on
    strings, once and for all; the properties of [graph2phone] are then
    proved on these functions. *)

Lemma replace3_cons (x y z : ascii) (rep : str) (a : ascii) (t : str) :
  starts3 x y z (a :: t) = false ->
  replace3 x y z rep (a :: t) = a :: replace3 x y z rep t.
Proof.
  intros H. destruct t as [ | b [ | c t']]; try reflexivity.
  cbn [replace3]. rewrite H. reflexivity.
Qed.

Lemma replace3_match (x y z : ascii) (rep : str) (a : ascii) (t : str) :
  starts3 x y z (a :: t) = true ->
  replace3 x y z rep (a :: t) = rep ++ replace3 x y z rep (skipn 2 t).
Proof.
  intros H. destruct t as [ | b [ | c t']]; try discriminate H.
  cbn [replace3 skipn]. rewrite H. reflexivity.
Qed.

Lemma replace3_clean (x y z : ascii) (rep s : str) :
  has3 x y z s = false -> replace3 x y z rep s = s.
Proof.
  induction s as [ | a t IH]; intros H; [reflexivity | ].
  cbn [has3] in H. apply orb_false_iff in H. destruct H as [H1 H2].
  rewrite replace3_cons by exact H1. rewrite IH by exact H2. reflexivity.
Qed.

Section Literal3.

Variables (r : Re.regex) (t : Re.template) (x y z : ascii) (cp : Re.caps).

Hypothesis find_spec :
  forall pre s : str,
    Re.find r pre s = if starts3 x y z s then Some (3%nat, cp) else None.

(** A pattern that matches exactly the literal [x y z] substitutes as
    [replace3]. *)
Lemma sub_from_replace3 (s : str) :
  forall (pre : str) (k : nat),
    Re.sub_from r t pre s k = replace3 x y z (Re.expand t cp) (skipn k s).
Proof.
  induction s as [ | a s IH]; intros pre k.
  - destruct k; cbn [Re.sub_from skipn replace3]; [ | reflexivity].
    rewrite find_spec. reflexivity.
  - destruct k as [ | k]; cbn [Re.sub_from skipn]; [ | apply IH].
    rewrite find_spec. destruct (starts3 x y z (a :: s)) eqn:E.
    + rewrite IH. rewrite (replace3_match _ _ _ _ _ _ E). reflexivity.
    + rewrite IH. rewrite (replace3_cons _ _ _ _ _ _ E). reflexivity.
Qed.

End Literal3.

Lemma sub_2 (n : nat) : (S (S (S n)) - S n)%nat = 2%nat.
Proof. lia. Qed.

Lemma sub_3 (n : nat) : (S (S (S n)) - n)%nat = 3%nat.
Proof. lia. Qed.

Lemma find_hyphen_oh (pre s : str) :
  Re.find re_hyphen_oh pre s =
    if starts3 "-" "o" "h" s then Some (3%nat, [(1%nat, ["o"; "h"])]) else None.
Proof.
  unfold Re.find, re_hyphen_oh.
  destruct s as [ | a [ | b [ | c s]]]; cbn [Re.bt Re.cset_mem starts3].
  - reflexivity.
  - destruct (Ascii.eqb a "-"); reflexivity.
  - destruct (Ascii.eqb a "-"); [ | reflexivity].
    destruct (Ascii.eqb b "o"); reflexivity.
  - destruct (Ascii.eqb a "-"); [ | reflexivity].
    destruct (Ascii.eqb_spec b "o") as [-> | ]; [ | reflexivity].
    destruct (Ascii.eqb_spec c "h") as [-> | ]; [ | reflexivity].
    cbn [andb Re.stop length]. rewrite sub_2, sub_3. reflexivity.
Qed.

Lemma find_oh_hyphen (pre s : str) :
  Re.find re_oh_hyphen pre s =
    if starts3 "o" "h" "-" s then Some (3%nat, []) else None.
Proof.
  unfold Re.find, re_oh_hyphen.
  destruct s as [ | a [ | b [ | c s]]]; cbn [Re.bt Re.cset_mem starts3].
  - reflexivity.
  - destruct (Ascii.eqb a "o"); reflexivity.
  - destruct (Ascii.eqb a "o"); [ | reflexivity].
    destruct (Ascii.eqb b "h"); reflexivity.
  - destruct (Ascii.eqb a "o"); [ | reflexivity].
    destruct (Ascii.eqb b "h"); [ | reflexivity].
    destruct (Ascii.eqb c "-"); [ | reflexivity].
    cbn [andb Re.stop length]. rewrite sub_3. reflexivity.
Qed.

(** [re.sub('-(oh)', '-', s)], [re.sub('-(oh)', '', s)] and
    [re.sub('oh-', 'ng-', s)]. *)
Lemma re_sub_hyphen_oh_hyphen (s : str) :
  re_sub "-(oh)" "-" s = Ok (replace3 "-" "o" "h" ["-"] s).
Proof.
  change (re_sub "-(oh)" "-" s)
    with (Ok (Re.sub_from re_hyphen_oh [Re.TLit "-"] [] s 0)).
  rewrite (sub_from_replace3 _ _ _ _ _ _ find_hyphen_oh). reflexivity.
Qed.

Lemma re_sub_hyphen_oh_empty (s : str) :
  re_sub "-(oh)" "" s = Ok (replace3 "-" "o" "h" [] s).
Proof.
  change (re_sub "-(oh)" "" s) with (Ok (Re.sub_from re_hyphen_oh [] [] s 0)).
  rewrite (sub_from_replace3 _ _ _ _ _ _ find_hyphen_oh). reflexivity.
Qed.

Lemma re_sub_oh_hyphen (s : str) :
  re_sub "oh-" "ng-" s = Ok (replace3 "o" "h" "-" ["n"; "g"; "-"] s).
Proof.
  change (re_sub "oh-" "ng-" s)
    with (Ok (Re.sub_from re_oh_hyphen [Re.TLit "n"; Re.TLit "g"; Re.TLit "-"] [] s 0)).
  rewrite (sub_from_replace3 _ _ _ _ _ _ find_oh_hyphen). reflexivity.
Qed.

(** ** The loop of [graph2phone] *)

Lemma head_ok_opens (s : str) : head_ok s = true -> opens_with_marker s = true.
Proof.
  destruct s as [ | c t]; [reflexivity | ]. cbn [head_ok opens_with_marker].
  destruct (Ascii.eqb c "#"); [reflexivity | ].
  destruct (Ascii.eqb c "-"); [reflexivity | discriminate].
Qed.

Lemma head_ok_app (a b : str) :
  head_ok a = true -> head_ok b = true -> head_ok (a ++ b) = true.
Proof.
  intros Ha Hb. destruct a as [ | c [ | w t]]; [exact Hb | | exact Ha].
  cbn [head_ok app] in *. destruct (Ascii.eqb c "#"); [reflexivity | ].
  rewrite andb_false_r in Ha. discriminate Ha.
Qed.

Lemma starts3_app_marker (x y z : ascii) (a : ascii) (t b : str) :
  starts3 x y z (a :: t) = false ->
  (forall c rest, b = c :: rest -> Ascii.eqb c y = false /\ Ascii.eqb c z = false) ->
  starts3 x y z (a :: t ++ b) = false.
Proof.
  intros H Hb. destruct t as [ | u [ | v t']]; cbn [app starts3] in *.
  - destruct b as [ | c [ | d rest]]; try reflexivity.
    destruct (Hb c (d :: rest) eq_refl) as [E _]. rewrite E.
    rewrite andb_false_r. reflexivity.
  - destruct b as [ | c rest]; try reflexivity.
    destruct (Hb c rest eq_refl) as [_ E]. rewrite E.
    rewrite andb_false_r. reflexivity.
  - exact H.
Qed.

Lemma opens_not_oh (b : str) :
  opens_with_marker b = true ->
  forall c rest, b = c :: rest -> Ascii.eqb c "o" = false /\ Ascii.eqb c "h" = false.
Proof.
  intros H c rest ->. cbn [opens_with_marker] in H.
  destruct (Ascii.eqb_spec c "#") as [-> | _]; [split; reflexivity | ].
  destruct (Ascii.eqb_spec c "-") as [-> | _]; [split; reflexivity | discriminate].
Qed.

(** No occurrence of [-oh] straddles the junction of [a] and a string that
    opens with a marker. *)
Lemma has3_app (a b : str) :
  has3 "-" "o" "h" a = false -> has3 "-" "o" "h" b = false ->
  opens_with_marker b = true ->
  has3 "-" "o" "h" (a ++ b) = false.
Proof.
  intros Ha Hb Ho. induction a as [ | x a IH]; [exact Hb | ].
  cbn [has3] in Ha. apply orb_false_iff in Ha. destruct Ha as [H1 H2].
  change ((x :: a) ++ b) with (x :: a ++ b). cbn [has3].
  rewrite (starts3_app_marker _ _ _ _ _ _ H1 (opens_not_oh b Ho)).
  rewrite IH by exact H2. reflexivity.
Qed.

Lemma replace3_app (rep a b : str) :
  has3 "-" "o" "h" a = false -> opens_with_marker b = true ->
  replace3 "-" "o" "h" rep (a ++ b) = a ++ replace3 "-" "o" "h" rep b.
Proof.
  intros Ha Ho. induction a as [ | x a IH]; [reflexivity | ].
  cbn [has3] in Ha. apply orb_false_iff in Ha. destruct Ha as [H1 H2].
  change ((x :: a) ++ b) with (x :: a ++ b).
  rewrite replace3_cons
    by exact (starts3_app_marker _ _ _ _ _ _ H1 (opens_not_oh b Ho)).
  rewrite IH by exact H2. reflexivity.
Qed.

Lemma tables_ok :
  forallb (fun o => forallb (fun n => forallb (fun d => syllable_ok o n d) COD) NUC) ONS = true.
Proof. vm_compute. reflexivity. Qed.

Lemma entry_In (table : list string) (i : Z) :
  0 <= i < Z.of_nat (length table) -> In (nth (Z.to_nat i) table EmptyString) table.
Proof. intros H. apply nth_In. lia. Qed.

Lemma chunk_facts (c : Z) :
  opens_with_marker (chunk c) = true /\
  has3 "-" "o" "h" (cchunk c) = false /\
  head_ok (cchunk c) = true.
Proof.
  unfold cchunk, chunk. destruct (c =? 32); [repeat split | ].
  destruct (isHangul c) eqn:E; [ | repeat split].
  apply isHangul_range in E.
  pose proof (indices_in_range c E) as H. unfold indices in H. cbv zeta in H.
  destruct H as (E1 & E2 & E3 & B1 & B2 & B3).
  change (c - 44032) with (c - 0xAC00) in *.
  rewrite E1 in B1. rewrite E2 in B2. rewrite E3 in B3.
  split; [reflexivity | ].
  assert (I1 := entry_In ONS ((c - 44032) / 588) ltac:(cbn [length ONS]; lia)).
  assert (I2 := entry_In NUC ((c - 44032) mod 588 / 28) ltac:(cbn [length NUC]; lia)).
  assert (I3 := entry_In COD ((c - 44032) mod 28) ltac:(cbn [length COD]; lia)).
  pose proof tables_ok as T.
  rewrite forallb_forall in T. specialize (T _ I1).
  rewrite forallb_forall in T. specialize (T _ I2).
  rewrite forallb_forall in T. specialize (T _ I3).
  unfold syllable_ok in T. cbv zeta in T.
  apply andb_true_iff in T. destruct T as [T1 T2].
  apply negb_true_iff in T1. unfold entry. split; assumption.
Qed.

Lemma cchunk_dropped (c : Z) : (c =? 32) || isHangul c = false -> cchunk c = [].
Proof.
  intros H. apply orb_false_iff in H. destruct H as [H1 H2].
  unfold cchunk, chunk. rewrite H1, H2. reflexivity.
Qed.

Lemma emit_chunk (c : Z) :
  emit c (if c =? 32 then 1 else if isHangul c then 0 else -1) = Ok (chunk c).
Proof.
  unfold chunk. destruct (c =? 32) eqn:E1; [reflexivity | ].
  destruct (isHangul c) eqn:E2; [ | reflexivity].
  apply isHangul_range in E2. unfold emit. cbn [Z.eqb].
  apply syllable_entries. exact E2.
Qed.

(** The state of the loop is the concatenation of what is left of each
    character. *)
Lemma g2p_loop_concat (g : list Z) :
  forall phones : str,
    has3 "-" "o" "h" phones = false ->
    g2p_loop (combine g (checkCharType g)) phones = Ok (phones ++ concat (map cchunk g)) /\
    has3 "-" "o" "h" (phones ++ concat (map cchunk g)) = false.
Proof.
  induction g as [ | c g IH]; intros phones Hp.
  - cbn [combine checkCharType map g2p_loop concat]. rewrite app_nil_r. auto.
  - destruct (chunk_facts c) as (F1 & F2 & F3).
    cbn [combine checkCharType map g2p_loop concat].
    unfold g2p_body. cbn [fst snd]. rewrite emit_chunk. cbn [bind].
    rewrite re_sub_hyphen_oh_hyphen. cbn [bind].
    rewrite replace3_app by assumption. fold (cchunk c).
    assert (Hc : has3 "-" "o" "h" (phones ++ cchunk c) = false).
    { apply has3_app; auto. apply head_ok_opens. exact F3. }
    destruct (IH _ Hc) as [IH1 IH2]. fold (checkCharType g).
    rewrite IH1. rewrite <- app_assoc in *. auto.
Qed.

(** ** The substitutions after the loop *)

Lemma head_ok_inv (s : str) :
  head_ok s = true ->
  s = [] \/ (exists t, s = "#" :: t) \/
  (exists w t, s = "-" :: w :: t /\ Re.is_word w = true).
Proof.
  destruct s as [ | c t]; [auto | ]. cbn [head_ok].
  destruct (Ascii.eqb_spec c "#") as [-> | _]; [eauto | ].
  destruct (Ascii.eqb_spec c "-") as [-> | _]; [ | discriminate].
  destruct t as [ | w t]; [discriminate | ]. cbn [orb andb]. eauto 6.
Qed.

Lemma word_not_marker (w : ascii) :
  Re.is_word w = true -> Ascii.eqb w "-" = false /\ Ascii.eqb w "#" = false.
Proof.
  intros H. split.
  - destruct (Ascii.eqb_spec w "-") as [-> | ]; [discriminate H | reflexivity].
  - destruct (Ascii.eqb_spec w "#") as [-> | ]; [discriminate H | reflexivity].
Qed.

(** A pattern anchored by [^] matches at the start of the string only. *)
Lemma sub_from_bol_rest (r : Re.regex) (t : Re.template) (s : str) :
  forall pre : str, pre <> [] -> Re.sub_from (Re.Seq Re.Bol r) t pre s 0 = s.
Proof.
  induction s as [ | c s IH]; intros pre Hp.
  - destruct pre; [contradiction | reflexivity].
  - cbn [Re.sub_from]. unfold Re.find. cbn [Re.bt].
    destruct pre; [contradiction | ]. rewrite IH by discriminate. reflexivity.
Qed.

(** [re.sub('^oh', '', s)] leaves a string that opens with a marker as it
    is. *)
Lemma re_sub_bol_oh (s : str) :
  opens_with_marker s = true -> re_sub "^oh" "" s = Ok s.
Proof.
  intros H.
  change (re_sub "^oh" "" s)
    with (Ok (Re.sub_from
                (Re.Seq Re.Bol (Re.Seq (Re.Sym (Re.CChr "o")) (Re.Sym (Re.CChr "h"))))
                [] [] s 0)).
  destruct s as [ | c s]; [reflexivity | ].
  destruct (opens_not_oh _ H c s eq_refl) as [E _].
  cbn [Re.sub_from]. unfold Re.find. cbn [Re.bt Re.cset_mem]. rewrite E.
  rewrite sub_from_bol_rest by discriminate. reflexivity.
Qed.

Lemma re_sub_bol_hyphen (s : str) :
  re_sub "^\-" "" s = Ok (drop_leading_hyphen s).
Proof.
  change (re_sub "^\-" "" s)
    with (Ok (Re.sub_from (Re.Seq Re.Bol (Re.Sym (Re.CChr "-"))) [] [] s 0)).
  destruct s as [ | c s]; [reflexivity | ].
  cbn [Re.sub_from drop_leading_hyphen]. unfold Re.find. cbn [Re.bt Re.cset_mem].
  destruct (Ascii.eqb c "-").
  - unfold Re.stop. cbn [length Nat.sub Re.expand app].
    rewrite sub_from_bol_rest by discriminate. reflexivity.
  - rewrite sub_from_bol_rest by discriminate. reflexivity.
Qed.

Section HeadPreserved.

Variables (r : Re.regex) (t : Re.template).

(** The pattern cannot start at a marker nor match the empty string, and
    the replacement opens with a word character. *)
Hypothesis no_hash : forall pre s, Re.find r pre ("#" :: s) = None.
Hypothesis no_hyphen : forall pre s, Re.find r pre ("-" :: s) = None.
Hypothesis no_empty : Re.find r [] [] = None.
Hypothesis word_repl :
  forall cp, exists x rest, Re.expand t cp = x :: rest /\ Re.is_word x = true.

Lemma sub_from_none (pre : str) (c : ascii) (s : str) :
  Re.find r pre (c :: s) = None ->
  Re.sub_from r t pre (c :: s) 0 = c :: Re.sub_from r t (c :: pre) s 0.
Proof. intros H. cbn [Re.sub_from]. rewrite H. reflexivity. Qed.

Lemma sub_from_word_first (pre : str) (w : ascii) (s : str) :
  Re.is_word w = true ->
  exists w' s', Re.sub_from r t pre (w :: s) 0 = w' :: s' /\ Re.is_word w' = true.
Proof.
  intros Hw. cbn [Re.sub_from].
  destruct (Re.find r pre (w :: s)) as [[[ | n] cp] | ].
  - destruct (word_repl cp) as (x & rest & -> & Hx). cbn [app]. eauto.
  - destruct (word_repl cp) as (x & rest & -> & Hx). cbn [app]. eauto.
  - eauto.
Qed.

Lemma sub_from_head_ok (s : str) :
  head_ok s = true -> head_ok (Re.sub_from r t [] s 0) = true.
Proof.
  intros H. destruct (head_ok_inv s H) as [-> | [(u & ->) | (w & u & -> & Hw)]].
  - cbn [Re.sub_from]. rewrite no_empty. reflexivity.
  - rewrite sub_from_none by apply no_hash. reflexivity.
  - rewrite sub_from_none by apply no_hyphen.
    destruct (sub_from_word_first ["-"] w u Hw) as (w' & s' & -> & Hw').
    cbn [head_ok]. rewrite Hw'. reflexivity.
Qed.

End HeadPreserved.

(** [re.sub('oh-', 'ng-', s)] and [re.sub('oh([# ]|$)', 'ng', s)] keep the
    opening of the string. *)
Lemma re_sub_oh_hyphen_head (s : str) :
  head_ok s = true ->
  exists s', re_sub "oh-" "ng-" s = Ok s' /\ head_ok s' = true.
Proof.
  intros H. eexists. split.
  - change (re_sub "oh-" "ng-" s)
      with (Ok (Re.sub_from re_oh_hyphen [Re.TLit "n"; Re.TLit "g"; Re.TLit "-"] [] s 0)).
    reflexivity.
  - apply sub_from_head_ok; try reflexivity; [ | exact H].
    intros cp. exists "n", ["g"; "-"]. split; reflexivity.
Qed.

Lemma re_sub_oh_end_head (s : str) :
  head_ok s = true ->
  exists s', re_sub "oh([# ]|$)" "ng" s = Ok s' /\ head_ok s' = true.
Proof.
  intros H. eexists. split.
  - change (re_sub "oh([# ]|$)" "ng" s)
      with (Ok (Re.sub_from re_oh_end [Re.TLit "n"; Re.TLit "g"] [] s 0)).
    reflexivity.
  - apply sub_from_head_ok; try reflexivity; [ | exact H].
    intros cp. exists "n", ["g"]. split; reflexivity.
Qed.

(** *** Runs of non-word characters *)

(** A successful greedy run has taken [j >= 1] characters before its
    continuation succeeded. *)
Lemma plus_run_sound (a : Re.cset) (k : Re.cont) (cp : Re.caps) (m : Re.mstate) (s : str) :
  forall pre : str,
    Re.plus_run a pre s cp k = Some m ->
    exists j : nat,
      (1 <= j <= length s)%nat /\ k (rev (firstn j s) ++ pre) (skipn j s) cp = Some m.
Proof.
  induction s as [ | c s IH]; intros pre H; [discriminate | ].
  cbn [Re.plus_run] in H. destruct (Re.cset_mem a c); [ | discriminate].
  destruct (Re.plus_run a (c :: pre) s cp k) as [m' | ] eqn:E.
  - injection H as ->. destruct (IH _ E) as (j & Hj & Hk).
    exists (S j). split; [cbn [length]; lia | ].
    cbn [firstn skipn rev]. rewrite <- app_assoc. exact Hk.
  - exists 1%nat. split; [cbn [length]; lia | ]. exact H.
Qed.

(** Its group holds a non-empty prefix of the text at the match. *)
Lemma find_nonword_hyphen_group (pre s : str) (n : nat) (cp : Re.caps) :
  Re.find re_nonword_hyphen pre s = Some (n, cp) ->
  exists j : nat, (1 <= j <= length s)%nat /\ Re.lookup 1 cp = firstn j s.
Proof.
  unfold Re.find, re_nonword_hyphen. cbn [Re.bt].
  destruct (Re.plus_run _ _ _ _ _) as [[[pre' s'] cp'] | ] eqn:E; [ | discriminate].
  intros [= _ <-]. apply plus_run_sound in E. destruct E as (j & Hj & Hk).
  exists j. split; [exact Hj | ].
  destruct (skipn j s) as [ | c u]; [discriminate | ].
  cbn [Re.cset_mem] in Hk. destruct (Ascii.eqb c "-"); [ | discriminate].
  unfold Re.stop in Hk. injection Hk as _ _ <-.
  cbn [Re.lookup Nat.eqb].
  rewrite length_app, length_rev, firstn_length_le by lia.
  replace (j + length pre - length pre)%nat with (length (rev (firstn j s)))
    by (rewrite length_rev, firstn_length_le; lia).
  rewrite firstn_app, Nat.sub_diag, firstn_all. cbn [firstn].
  rewrite app_nil_r. apply rev_involutive.
Qed.

(** [re.sub('(\W+)\-', '\1', s)] keeps the opening of the string. *)
Lemma re_sub_nonword_hyphen_head (s : str) :
  head_ok s = true ->
  exists s', re_sub "(\W+)\-" "\1" s = Ok s' /\ head_ok s' = true.
Proof.
  intros H. eexists. split.
  - change (re_sub "(\W+)\-" "\1" s)
      with (Ok (Re.sub_from re_nonword_hyphen [Re.TRef 1] [] s 0)).
    reflexivity.
  - destruct (head_ok_inv s H) as [-> | [(u & ->) | (w & u & -> & Hw)]].
    + reflexivity.
    + cbn [Re.sub_from].
      destruct (Re.find re_nonword_hyphen [] ("#" :: u)) as [[n cp] | ] eqn:E;
        [ | reflexivity].
      apply find_nonword_hyphen_group in E. destruct E as (j & Hj & Hc).
      destruct j as [ | j]; [lia | ]. cbn [firstn] in Hc.
      cbn [Re.expand]. rewrite Hc. destruct n; reflexivity.
    + destruct (word_not_marker w Hw) as [Hh _].
      assert (E0 : Re.find re_nonword_hyphen [] ("-" :: w :: u) = None).
      { unfold Re.find, re_nonword_hyphen. cbn [Re.bt Re.plus_run Re.cset_mem].
        change (Re.is_word "-") with false. rewrite Hw, Hh. reflexivity. }
      assert (E1 : Re.find re_nonword_hyphen ["-"] (w :: u) = None).
      { unfold Re.find, re_nonword_hyphen. cbn [Re.bt Re.plus_run Re.cset_mem].
        rewrite Hw. reflexivity. }
      rewrite (sub_from_none _ _ _ _ _ E0), (sub_from_none _ _ _ _ _ E1).
      cbn [head_ok]. rewrite Hw. reflexivity.
Qed.

(** A run of non-word characters is followed by the end of the string
    exactly when it is the rest of the string. *)
Lemma plus_run_eol (s : str) :
  forall pre : str,
    Re.plus_run Re.CNonWord pre s [] eol_cont =
      match s with
      | [] => None
      | _ :: _ => if all_nonword s then Some (rev s ++ pre, [], []) else None
      end.
Proof.
  induction s as [ | c s IH]; intros pre; [reflexivity | ].
  cbn [Re.plus_run Re.cset_mem all_nonword forallb].
  destruct (negb (Re.is_word c)) eqn:Ec; [ | reflexivity]. cbn [andb].
  rewrite IH. destruct s as [ | d s].
  - reflexivity.
  - fold (all_nonword (d :: s)). destruct (all_nonword (d :: s)) eqn:Ea.
    + cbn [rev]. rewrite <- !app_assoc. reflexivity.
    + unfold eol_cont. cbn [Re.bt]. destruct s as [ | e s]; [ | reflexivity].
      destruct (Ascii.eqb_spec d Re.newline) as [-> | ]; [ | reflexivity].
      discriminate Ea.
Qed.

Lemma find_nonword_end (pre s : str) :
  Re.find re_nonword_end pre s =
    match s with
    | [] => None
    | _ :: _ => if all_nonword s then Some (length s, []) else None
    end.
Proof.
  unfold Re.find, re_nonword_end. cbn [Re.bt].
  change (fun pre' s' cp' => Re.bt Re.Eol pre' s' cp' Re.stop) with eol_cont.
  rewrite plus_run_eol. destruct s as [ | c s]; [reflexivity | ].
  destruct (all_nonword (c :: s)); [ | reflexivity].
  rewrite length_app, length_rev. f_equal. f_equal. lia.
Qed.

Lemma sub_from_skip_rest (r : Re.regex) (t : Re.template) (s : str) :
  forall pre : str,
    Re.find r (rev s ++ pre) [] = None -> Re.sub_from r t pre s (length s) = [].
Proof.
  induction s as [ | c s IH]; intros pre H.
  - cbn [Re.sub_from length]. cbn [rev app] in H. rewrite H. reflexivity.
  - cbn [Re.sub_from length]. apply IH. cbn [rev] in H. rewrite <- app_assoc in H. exact H.
Qed.

Lemma sub_from_nonword_end (s : str) :
  forall pre : str, Re.sub_from re_nonword_end [] pre s 0 = rstrip_nonword s.
Proof.
  induction s as [ | c s IH]; intros pre; [reflexivity | ].
  cbn [Re.sub_from rstrip_nonword]. rewrite find_nonword_end.
  destruct (all_nonword (c :: s)).
  - cbn [length Re.expand app]. apply sub_from_skip_rest. apply find_nonword_end.
  - rewrite IH. reflexivity.
Qed.

(** [re.sub('\W+$', '', s)] *)
Lemma re_sub_nonword_end (s : str) : re_sub "\W+$" "" s = Ok (rstrip_nonword s).
Proof.
  change (re_sub "\W+$" "" s) with (Ok (Re.sub_from re_nonword_end [] [] s 0)).
  rewrite sub_from_nonword_end. reflexivity.
Qed.

(** What is left ends with a word character. *)
Lemma rstrip_nonword_last (s : str) :
  rstrip_nonword s = [] \/ Re.is_word (last (rstrip_nonword s) "a") = true.
Proof.
  induction s as [ | c s IH]; [left; reflexivity | ].
  cbn [rstrip_nonword]. destruct (all_nonword (c :: s)) eqn:E; [left; reflexivity | ].
  right. destruct IH as [IH | IH].
  - rewrite IH. cbn [last].
    cbn [all_nonword forallb] in E. apply andb_false_iff in E. destruct E as [E | E].
    + apply negb_false_iff in E. exact E.
    + destruct s as [ | d s]; [discriminate E | ].
      cbn [rstrip_nonword] in IH. fold (all_nonword (d :: s)) in E.
      rewrite E in IH. discriminate IH.
  - destruct (rstrip_nonword s) as [ | d u] eqn:Er; [ | exact IH].
    cbn [last] in *. cbn [all_nonword forallb] in E.
    apply andb_false_iff in E. destruct E as [E | E].
    + apply negb_false_iff in E. exact E.
    + destruct s as [ | e s]; [discriminate E | ].
      cbn [rstrip_nonword] in Er. fold (all_nonword (e :: s)) in E.
      rewrite E in Er. discriminate Er.
Qed.

Lemma rstrip_nonword_head (s : str) :
  head_ok s = true -> head_ok (rstrip_nonword s) = true.
Proof.
  intros H. destruct (head_ok_inv s H) as [-> | [(u & ->) | (w & u & -> & Hw)]].
  - reflexivity.
  - cbn [rstrip_nonword]. destruct (all_nonword ("#" :: u)); reflexivity.
  - cbn [rstrip_nonword all_nonword forallb]. rewrite Hw.
    cbn [negb andb]. rewrite andb_false_r. cbn [head_ok]. rewrite Hw. reflexivity.
Qed.

(** ** [graph2phone] on every input *)

Lemma graph2phone_concat (g : list Z) :
  graph2phone g = after_loop (concat (map cchunk g)).
Proof.
  unfold graph2phone. cbv zeta.
  rewrite (proj1 (g2p_loop_concat g [] eq_refl)). reflexivity.
Qed.

Lemma concat_cchunk_head (g : list Z) : head_ok (concat (map cchunk g)) = true.
Proof.
  induction g as [ | c g IH]; [reflexivity | ].
  cbn [map concat]. apply head_ok_app; [apply chunk_facts | exact IH].
Qed.

Lemma concat_cchunk_filter (g : list Z) :
  concat (map cchunk (filter (fun c => (c =? 32) || isHangul c) g)) =
  concat (map cchunk g).
Proof.
  induction g as [ | c g IH]; [reflexivity | ].
  cbn [filter map concat]. destruct ((c =? 32) || isHangul c) eqn:E.
  - cbn [map concat]. rewrite IH. reflexivity.
  - rewrite (cchunk_dropped c E). exact IH.
Qed.

(** The result of [graph2phone] is what [\W+$] and [^\-] leave of a string
    that is empty, or opens with [#], or opens with a hyphen and a word
    character. *)
Lemma after_loop_ok (phones : str) :
  has3 "-" "o" "h" phones = false -> head_ok phones = true ->
  exists x : str,
    head_ok x = true /\
    after_loop phones = Ok (drop_leading_hyphen (rstrip_nonword x)).
Proof.
  intros Hc Hh. unfold after_loop.
  rewrite re_sub_bol_oh by (apply head_ok_opens; exact Hh). cbn [bind].
  rewrite re_sub_hyphen_oh_empty. cbn [bind].
  rewrite replace3_clean by exact Hc.
  destruct (re_sub_oh_hyphen_head _ Hh) as (x4 & -> & H4). cbn [bind].
  destruct (re_sub_oh_end_head _ H4) as (x5 & -> & H5). cbn [bind].
  destruct (re_sub_nonword_hyphen_head _ H5) as (x6 & -> & H6). cbn [bind].
  rewrite re_sub_nonword_end. cbn [bind].
  rewrite re_sub_bol_hyphen. cbn [bind].
  exists x6. split; [exact H6 | reflexivity].
Qed.

Lemma graph2phone_ok (g : list Z) :
  exists x : str,
    head_ok x = true /\
    graph2phone g = Ok (drop_leading_hyphen (rstrip_nonword x)).
Proof.
  rewrite graph2phone_concat. apply after_loop_ok.
  - exact (proj2 (g2p_loop_concat g [] eq_refl)).
  - apply concat_cchunk_head.
Qed.

(** C8. [graph2phone] raises on no input, and the characters that are
    neither U+0020 nor Hangul syllables add nothing: the result is that of
    the input without them. *)
Theorem graph2phone_total_and_drops (g : list Z) :
  (exists out : str, graph2phone g = Ok out) /\
  graph2phone (filter (fun c => (c =? 32) || isHangul c) g) = graph2phone g.
Proof.
  split.
  - destruct (graph2phone_ok g) as (x & _ & H). eauto.
  - rewrite !graph2phone_concat, concat_cchunk_filter. reflexivity.
Qed.

(** ** Boundary markers at the ends *)

(** C7: the [#] of a space before the first syllable is left at the start
    of the result, while the [#] of a space after the last syllable and the
    hyphen before the first syllable are removed: [\W+$] takes both markers
    away at the end, [^\-] the hyphen only at the start. *)
Theorem leading_space_keeps_marker :
  graph2phone [32; 0xAC00] = Ok (s2l "#k0aa") /\
  graph2phone [0xAC00; 32] = Ok (s2l "k0aa") /\
  graph2phone [0xAC00] = Ok (s2l "k0aa").
Proof. vm_compute. repeat split. Qed.

(** X15. On every input the result of [graph2phone] does not end with a
    boundary marker and does not start with a hyphen. *)
Theorem graph2phone_ends (g : list Z) :
  exists out : str,
    graph2phone g = Ok out /\
    is_marker (last out "a") = false /\
    hd "a" out <> "-".
Proof.
  destruct (graph2phone_ok g) as (x & Hx & ->).
  eexists. split; [reflexivity | ].
  pose proof (rstrip_nonword_head x Hx) as Hy.
  pose proof (rstrip_nonword_last x) as Hl.
  assert (Hw : forall c, Re.is_word c = true -> is_marker c = false).
  { intros c Hc. destruct (word_not_marker c Hc) as [E1 E2].
    unfold is_marker. rewrite E1, E2. reflexivity. }
  destruct (head_ok_inv _ Hy) as [E | [(u & E) | (w & u & E & Hww)]]; rewrite E in *.
  - split; [reflexivity | discriminate].
  - destruct Hl as [Hl | Hl]; [discriminate Hl | ].
    cbn [drop_leading_hyphen Ascii.eqb]. split; [apply Hw; exact Hl | discriminate].
  - destruct Hl as [Hl | Hl]; [discriminate Hl | ].
    cbn [drop_leading_hyphen]. change (Ascii.eqb "-" "-") with true. cbv iota.
    split; [apply Hw; exact Hl | ].
    cbn [hd]. intros ->. discriminate Hww.
Qed.

(** * Further properties *)

(** ** [addSpace] *)

Lemma nth_error_app_here {A : Type} (pre rest : list A) (k : nat) :
  nth_error (pre ++ rest) (length pre + k) = nth_error rest k.
Proof.
  rewrite nth_error_app2 by lia. f_equal. lia.
Qed.

Lemma addSpace_loop_spaced (fuel : nat) :
  forall (pre rest acc : str),
    (length rest < fuel)%nat ->
    addSpace_loop fuel (pre ++ rest) (length pre) acc =
      (r <- spaced (length pre =? 0)%nat rest ;; Ok (acc ++ r)).
Proof.
  induction fuel as [ | fuel IH]; intros pre rest acc Hf; [lia | ].
  cbn [addSpace_loop]. rewrite length_app.
  destruct rest as [ | a [ | b t]].
  - cbn [length spaced bind].
    replace (length pre <? length pre + 0)%nat with false
      by (symmetry; apply Nat.ltb_ge; lia).
    rewrite app_nil_r. reflexivity.
  - cbn [length spaced bind].
    replace (length pre <? length pre + 1)%nat with true
      by (symmetry; apply Nat.ltb_lt; lia).
    unfold at_.
    rewrite <- (Nat.add_0_r (length pre)) at 1. rewrite nth_error_app_here.
    cbn [nth_error of_option bind].
    rewrite nth_error_app_here. reflexivity.
  - cbn [length] in Hf. cbn [length spaced].
    replace (length pre <? length pre + S (S (length t)))%nat with true
      by (symmetry; apply Nat.ltb_lt; lia).
    unfold at_.
    rewrite <- (Nat.add_0_r (length pre)) at 1. rewrite nth_error_app_here.
    cbn [nth_error of_option bind].
    rewrite nth_error_app_here. cbn [nth_error of_option bind].
    replace (pre ++ a :: b :: t) with ((pre ++ [a; b]) ++ t)
      by (rewrite <- app_assoc; reflexivity).
    replace (length pre + 2)%nat with (length (pre ++ [a; b]))
      by (rewrite length_app; reflexivity).
    rewrite IH by lia.
    replace (length (pre ++ [a; b]) =? 0)%nat with false
      by (symmetry; apply Nat.eqb_neq; rewrite length_app; cbn [length]; lia).
    destruct (spaced false t) as [r | e | ]; cbn [bind]; try reflexivity.
    destruct (length pre =? 0)%nat; rewrite <- app_assoc; reflexivity.
Qed.

Lemma addSpace_spaced (s : str) : addSpace s = spaced true s.
Proof.
  unfold addSpace.
  pose proof (addSpace_loop_spaced (S (length s)) [] s [] ltac:(lia)) as H.
  cbn [app length Nat.eqb] in H. rewrite H.
  destruct (spaced true s); reflexivity.
Qed.

Lemma pair_ind (P : str -> Prop) :
  P [] -> (forall a, P [a]) -> (forall a b t, P t -> P (a :: b :: t)) ->
  forall s, P s.
Proof.
  intros H0 H1 H2 s.
  assert (H : P s /\ forall c, P (c :: s)).
  { induction s as [ | a s [IHa IHb]]; [split; [exact H0 | exact H1] | ].
    split; [apply IHb | ]. intros c. apply H2. exact IHa. }
  exact (proj1 H).
Qed.

Lemma spaced_even (s : str) :
  forall first : bool,
    Nat.even (length s) = true ->
    exists r, spaced first s = Ok r /\ without " " r = without " " s.
Proof.
  induction s as [ | a | a b t IH] using pair_ind; intros first He.
  - exists []. split; reflexivity.
  - discriminate He.
  - destruct (IH false He) as (r & Hr & Hw).
    cbn [spaced]. rewrite Hr. cbn [bind]. eexists. split; [reflexivity | ].
    unfold without in *. destruct first.
    + cbn [app filter]. rewrite Hw. reflexivity.
    + cbn [app filter]. change (negb (Ascii.eqb " " " ")) with false. cbv iota.
      rewrite Hw. reflexivity.
Qed.

Lemma spaced_odd (s : str) :
  forall first : bool,
    Nat.even (length s) = false -> spaced first s = Raise IndexError.
Proof.
  induction s as [ | a | a b t IH] using pair_ind; intros first He.
  - discriminate He.
  - reflexivity.
  - cbn [spaced]. rewrite (IH false He). reflexivity.
Qed.

(** X1. [addSpace] returns on the strings of even length, and what it
    returns is the string with spaces added (removing the spaces from both
    gives the same); on a string of odd length it reads past the end. *)
Theorem addSpace_even_odd (s : str) :
  (Nat.even (length s) = true ->
     exists r, addSpace s = Ok r /\ without " " r = without " " s) /\
  (Nat.even (length s) = false -> addSpace s = Raise IndexError).
Proof.
  rewrite addSpace_spaced. split.
  - apply spaced_even.
  - apply spaced_odd.
Qed.

Lemma addSpace_even_odd_witness :
  (Nat.even (length (s2l "k0aanf")) = true /\
   exists r, addSpace (s2l "k0aanf") = Ok r /\
             without " " r = without " " (s2l "k0aanf")) /\
  (Nat.even (length (s2l "k0a")) = false /\
   addSpace (s2l "k0a") = Raise IndexError).
Proof.
  split.
  - split; [reflexivity | ].
    apply (proj1 (addSpace_even_odd (s2l "k0aanf"))). reflexivity.
  - split; [reflexivity | ].
    apply (proj2 (addSpace_even_odd (s2l "k0a"))). reflexivity.
Defined.

(** The units of a string of even length are joined by single spaces. *)
Example addSpace_tokens : addSpace (s2l "k0aanf") = Ok (s2l "k0 aa nf").
Proof. reflexivity. Qed.

(** ** [addPhoneBoundary] *)

Lemma at_app (pre rest : str) (k : nat) (i : nat) :
  i = (length pre + k)%nat ->
  at_ (pre ++ rest) i = of_option IndexError (nth_error rest k).
Proof. intros ->. unfold at_. rewrite nth_error_app_here. reflexivity. Qed.

Lemma addPhoneBoundary_loop_segment (fuel : nat) :
  forall (pre rest acc : str),
    (length rest < fuel)%nat ->
    addPhoneBoundary_loop fuel (pre ++ rest) (length pre) acc =
      (r <- segment rest ;; Ok (acc ++ r)).
Proof.
  induction fuel as [ | fuel IH]; intros pre rest acc Hf; [lia | ].
  cbn [addPhoneBoundary_loop]. rewrite length_app.
  destruct rest as [ | c [ | d t]].
  - cbn [length segment bind].
    replace (length pre + 2 <=? length pre + 0)%nat with false
      by (symmetry; apply Nat.leb_gt; lia).
    rewrite app_nil_r. reflexivity.
  - cbn [length segment bind].
    replace (length pre + 2 <=? length pre + 1)%nat with false
      by (symmetry; apply Nat.leb_gt; lia).
    rewrite app_nil_r. reflexivity.
  - cbn [length] in Hf. cbn [length].
    replace (length pre + 2 <=? length pre + S (S (length t)))%nat with true
      by (symmetry; apply Nat.leb_le; lia).
    rewrite (at_app pre _ 0) by lia. cbn [nth_error of_option bind segment].
    unfold is_sep, sep_copy.
    destruct (Ascii.eqb c "-") eqn:E1; [ | destruct (Ascii.eqb c " ") eqn:E2;
      [ | destruct (Ascii.eqb c "#") eqn:E3]]; cbn [orb].
    + rewrite (at_app pre _ 1) by lia. cbn [nth_error of_option bind].
      rewrite (at_app pre _ 2) by lia. cbn [nth_error].
      destruct t as [ | e t']; [reflexivity | ]. cbn [of_option bind].
      replace (pre ++ c :: d :: e :: t') with ((pre ++ [c; d; e]) ++ t')
        by (rewrite <- app_assoc; reflexivity).
      replace (length pre + 1 + 2)%nat with (length (pre ++ [c; d; e]))
        by (rewrite length_app; cbn [length]; lia).
      cbn [length] in Hf. rewrite IH by lia.
      apply Ascii.eqb_eq in E1. subst c. change (Ascii.eqb "-" " ") with false. cbv iota.
      destruct (segment t'); cbn [bind]; try reflexivity.
      rewrite <- !app_assoc. reflexivity.
    + rewrite (at_app pre _ 1) by lia. cbn [nth_error of_option bind].
      rewrite (at_app pre _ 2) by lia. cbn [nth_error].
      destruct t as [ | e t']; [reflexivity | ]. cbn [of_option bind].
      replace (pre ++ c :: d :: e :: t') with ((pre ++ [c; d; e]) ++ t')
        by (rewrite <- app_assoc; reflexivity).
      replace (length pre + 1 + 2)%nat with (length (pre ++ [c; d; e]))
        by (rewrite length_app; cbn [length]; lia).
      cbn [length] in Hf. rewrite IH by lia.
      destruct (segment t'); cbn [bind]; try reflexivity.
      rewrite <- !app_assoc. reflexivity.
    + rewrite (at_app pre _ 1) by lia. cbn [nth_error of_option bind].
      rewrite (at_app pre _ 2) by lia. cbn [nth_error].
      destruct t as [ | e t']; [reflexivity | ]. cbn [of_option bind].
      replace (pre ++ c :: d :: e :: t') with ((pre ++ [c; d; e]) ++ t')
        by (rewrite <- app_assoc; reflexivity).
      replace (length pre + 1 + 2)%nat with (length (pre ++ [c; d; e]))
        by (rewrite length_app; cbn [length]; lia).
      cbn [length] in Hf. rewrite IH by lia.
      destruct (segment t'); cbn [bind]; try reflexivity.
      rewrite <- !app_assoc. reflexivity.
    + rewrite (at_app pre _ 0) by lia. cbn [nth_error of_option bind].
      rewrite (at_app pre _ 1) by lia. cbn [nth_error of_option bind].
      replace (pre ++ c :: d :: t) with ((pre ++ [c; d]) ++ t)
        by (rewrite <- app_assoc; reflexivity).
      replace (length pre + 2)%nat with (length (pre ++ [c; d]))
        by (rewrite length_app; cbn [length]; lia).
      rewrite IH by lia.
      destruct (segment t); cbn [bind]; try reflexivity.
      rewrite <- !app_assoc. reflexivity.
Qed.

(** The loop of [addPhoneBoundary] comes to its end on every string, and
    computes [segment]. *)
Lemma addPhoneBoundary_segment (s : str) : addPhoneBoundary s = segment s.
Proof.
  unfold addPhoneBoundary.
  pose proof (addPhoneBoundary_loop_segment (S (length s)) [] s [] ltac:(lia)) as H.
  cbn [app length] in H. rewrite H.
  destruct (segment s); reflexivity.
Qed.

Lemma penult_ok_cons (c : ascii) (t : str) :
  (2 <= length t)%nat -> penult_ok (c :: t) = penult_ok t.
Proof.
  destruct t as [ | d [ | e t']]; cbn [length]; try lia. reflexivity.
Qed.

Lemma segment_penult (n : nat) :
  forall s : str,
    (length s <= n)%nat -> penult_ok s = true -> exists r, segment s = Ok r.
Proof.
  induction n as [ | n IH]; intros s Hn Hp.
  - destruct s; [exists []; reflexivity | cbn [length] in Hn; lia].
  - destruct s as [ | c [ | d t]]; try (exists []; reflexivity).
    cbn [length] in Hn. cbn [segment]. destruct (is_sep c) eqn:Ec.
    + destruct t as [ | e t'].
      * cbn [penult_ok] in Hp. rewrite Ec in Hp. discriminate Hp.
      * assert (Ht : exists r, segment t' = Ok r).
        { destruct t' as [ | f [ | g t'']]; try (exists []; reflexivity).
          apply IH; [cbn [length] in *; lia | ].
          rewrite !penult_ok_cons in Hp by (cbn [length]; lia). exact Hp. }
        destruct Ht as (r & ->). cbn [bind]. eauto.
    + assert (Ht : exists r, segment t = Ok r).
      { destruct t as [ | e [ | f t']]; try (exists []; reflexivity).
        apply IH; [cbn [length] in *; lia | ].
        rewrite !penult_ok_cons in Hp by (cbn [length]; lia). exact Hp. }
      destruct Ht as (r & ->). cbn [bind]. eauto.
Qed.

Lemma segment_no_fuel (n : nat) :
  forall s : str, (length s <= n)%nat -> segment s <> OutOfFuel.
Proof.
  induction n as [ | n IH]; intros s Hn.
  - destruct s; [discriminate | cbn [length] in Hn; lia].
  - destruct s as [ | c [ | d t]]; try discriminate.
    cbn [length] in Hn. cbn [segment]. destruct (is_sep c).
    + destruct t as [ | e t']; [discriminate | ].
      pose proof (IH t' ltac:(cbn [length] in Hn; lia)) as H.
      destruct (segment t'); cbn [bind]; congruence.
    + pose proof (IH t ltac:(lia)) as H.
      destruct (segment t); cbn [bind]; congruence.
Qed.

(** X2. The loop of [addPhoneBoundary] comes to its end on every string,
    and it returns, without an index out of range, whenever the
    next-to-last character of the string is none of [-], space and [#]. *)
Theorem addPhoneBoundary_returns (s : str) :
  addPhoneBoundary s <> OutOfFuel /\
  (penult_ok s = true -> exists r, addPhoneBoundary s = Ok r).
Proof.
  rewrite addPhoneBoundary_segment. split.
  - apply (segment_no_fuel (length s)). lia.
  - apply (segment_penult (length s)). lia.
Qed.

Lemma addPhoneBoundary_returns_witness :
  penult_ok (s2l "k0aa#k0aa") = true /\
  exists r, addPhoneBoundary (s2l "k0aa#k0aa") = Ok r.
Proof.
  split; [reflexivity | ].
  apply (proj2 (addPhoneBoundary_returns (s2l "k0aa#k0aa"))). reflexivity.
Defined.

Lemma without_cons_other (x c : ascii) (s : str) :
  c <> x -> without x (c :: s) = c :: without x s.
Proof.
  intros H. unfold without. cbn [filter].
  replace (Ascii.eqb c x) with false by (symmetry; apply Ascii.eqb_neq; exact H).
  reflexivity.
Qed.

Lemma segment_commas (n : nat) :
  forall s r : str,
    (length s <= n)%nat -> segment s = Ok r ->
    ~ In " " s -> ~ In "," s ->
    without "," r = s \/ exists c, s = without "," r ++ [c].
Proof.
  induction n as [ | n IH]; intros s r Hn Hs Hsp Hc.
  - destruct s; [ | cbn [length] in Hn; lia]. injection Hs as <-. left. reflexivity.
  - destruct s as [ | c [ | d t]].
    + injection Hs as <-. left. reflexivity.
    + injection Hs as <-. right. exists c. reflexivity.
    + cbn [length] in Hn. cbn [segment] in Hs.
      assert (Hc0 : c <> ",") by (intros ->; apply Hc; cbn [In]; auto).
      assert (Hd0 : d <> ",") by (intros ->; apply Hc; cbn [In]; auto).
      destruct (is_sep c) eqn:Ec.
      * destruct t as [ | e t']; [discriminate Hs | ].
        assert (He0 : e <> ",") by (intros ->; apply Hc; cbn [In]; auto).
        destruct (segment t') as [r' | | ] eqn:Er; cbn [bind] in Hs; try discriminate Hs.
        injection Hs as <-.
        assert (Hcs : sep_copy c = [c]).
        { unfold sep_copy.
          destruct (Ascii.eqb_spec c " ") as [-> | ]; [ | reflexivity].
          exfalso. apply Hsp. cbn [In]. auto. }
        rewrite Hcs. cbn [app].
        rewrite !without_cons_other by assumption.
        unfold without at 1. cbn [filter]. fold (without "," r').
        destruct (IH t' r' ltac:(cbn [length] in Hn; lia) Er
                    ltac:(intros H; apply Hsp; cbn [In]; auto)
                    ltac:(intros H; apply Hc; cbn [In]; auto)) as [-> | (x & Hx)].
        -- left. reflexivity.
        -- right. exists x. rewrite Hx at 1. reflexivity.
      * destruct (segment t) as [r' | | ] eqn:Er; cbn [bind] in Hs; try discriminate Hs.
        injection Hs as <-.
        rewrite !without_cons_other by assumption.
        unfold without at 1. cbn [filter]. fold (without "," r').
        destruct (IH t r' ltac:(lia) Er
                    ltac:(intros H; apply Hsp; cbn [In]; auto)
                    ltac:(intros H; apply Hc; cbn [In]; auto)) as [-> | (x & Hx)].
        -- left. reflexivity.
        -- right. exists x. rewrite Hx at 1. reflexivity.
Qed.

(** X3. [addPhoneBoundary] only adds commas to a string that holds no space
    and no comma: removing the commas from what it returns gives the string
    back, or the string less its last character. *)
Theorem addPhoneBoundary_only_commas (s r : str) :
  addPhoneBoundary s = Ok r -> ~ In " " s -> ~ In "," s ->
  without "," r = s \/ exists c, s = without "," r ++ [c].
Proof.
  rewrite addPhoneBoundary_segment. apply (segment_commas (length s)). lia.
Qed.

Lemma addPhoneBoundary_only_commas_witness :
  addPhoneBoundary (s2l "k0aa#k0a") = Ok (s2l "k0,aa,#k0,") /\
  ~ In " " (s2l "k0aa#k0a") /\ ~ In "," (s2l "k0aa#k0a") /\
  (without "," (s2l "k0,aa,#k0,") = s2l "k0aa#k0a" \/
   exists c, s2l "k0aa#k0a" = without "," (s2l "k0,aa,#k0,") ++ [c]).
Proof.
  assert (H1 : addPhoneBoundary (s2l "k0aa#k0a") = Ok (s2l "k0,aa,#k0,"))
    by reflexivity.
  assert (H2 : ~ In " " (s2l "k0aa#k0a"))
    by (cbn; intros H; repeat destruct H as [H | H]; try discriminate H; exact H).
  assert (H3 : ~ In "," (s2l "k0aa#k0a"))
    by (cbn; intros H; repeat destruct H as [H | H]; try discriminate H; exact H).
  repeat split; try assumption.
  exact (addPhoneBoundary_only_commas _ _ H1 H2 H3).
Defined.

(** ** The end of the string *)






(** ** [phone2prono] *)

Lemma rule_table_compiles : forallb compiles (combine rule_in rule_out) = true.
Proof. vm_compute. reflexivity. Qed.

Lemma re_sub_compiles (p t : string) (s : str) :
  compiles (p, t) = true -> exists r, re_sub p t s = Ok r.
Proof.
  unfold compiles, re_sub. cbn [fst snd].
  destruct (Re.compile p t) as [[r tm] | ]; [eauto | discriminate].
Qed.

Lemma apply_rules_compiles (rules : list (string * string)) :
  forallb compiles rules = true ->
  forall s : str, exists r, apply_rules rules s = Ok r.
Proof.
  induction rules as [ | [p t] rules IH]; intros H s; [exists s; reflexivity | ].
  cbn [forallb] in H. apply andb_true_iff in H. destruct H as [H1 H2].
  cbn [apply_rules]. destruct (re_sub_compiles p t s H1) as (x & ->). cbn [bind].
  apply IH. exact H2.
Qed.

Lemma phone2prono_compiles (rin rout : list string) (s : str) :
  combine rin rout <> [] -> forallb compiles (combine rin rout) = true ->
  exists r, phone2prono s rin rout = Ok r.
Proof.
  intros Hn Hc. unfold phone2prono.
  destruct (combine rin rout) as [ | rule rules] eqn:E; [contradiction | ].
  apply apply_rules_compiles. exact Hc.
Qed.

Lemma rule_table_nonempty : combine rule_in rule_out <> [].
Proof. discriminate. Qed.

(** X4. The rule table of [runKoG2P] pairs 184 patterns with 184
    templates, [re.sub] accepts every pair (each pattern is well formed and
    each template refers to groups of its pattern only), and so one pass of
    the table returns on every string. *)
Theorem phone2prono_table_returns :
  length rule_in = 184%nat /\ length rule_out = 184%nat /\
  forallb compiles (combine rule_in rule_out) = true /\
  forall s : str, exists r, phone2prono s rule_in rule_out = Ok r.
Proof.
  split; [reflexivity | ]. split; [reflexivity | ].
  split; [exact rule_table_compiles | ].
  intros s. apply phone2prono_compiles.
  - exact rule_table_nonempty.
  - exact rule_table_compiles.
Qed.

Lemma combine_app_same {A B : Type} (l1 l2 : list A) (m1 m2 : list B) :
  length l1 = length m1 ->
  combine (l1 ++ l2) (m1 ++ m2) = combine l1 m1 ++ combine l2 m2.
Proof.
  revert m1. induction l1 as [ | a l1 IH]; intros [ | b m1] H;
    try discriminate H; [reflexivity | ].
  cbn [app combine]. rewrite IH by (injection H; auto). reflexivity.
Qed.

Lemma apply_rules_app (r1 r2 : list (string * string)) (s : str) :
  apply_rules (r1 ++ r2) s = (x <- apply_rules r1 s ;; apply_rules r2 x).
Proof.
  revert s. induction r1 as [ | [p t] r1 IH]; intros s; [reflexivity | ].
  cbn [app apply_rules]. destruct (re_sub p t s); cbn [bind]; auto.
Qed.

(** X5. The rules are applied in the order of the table, each to the result
    of the one before: the pass of a table of one rule is [re.sub] with that
    rule, and a pass of two tables one after the other is the pass of the
    first followed by the pass of the second. *)
Theorem phone2prono_app
  (s : str) (p t : string) (rin1 rout1 rin2 rout2 : list string) :
  phone2prono s [p] [t] = re_sub p t s /\
  (length rin1 = length rout1 -> rin1 <> [] -> rin2 <> [] -> rout2 <> [] ->
   phone2prono s (rin1 ++ rin2) (rout1 ++ rout2) =
     (x <- phone2prono s rin1 rout1 ;; phone2prono x rin2 rout2)).
Proof.
  split.
  { unfold phone2prono. cbn [combine apply_rules].
    destruct (re_sub p t s); reflexivity. }
  intros Hl H1 H2 H3. unfold phone2prono. rewrite combine_app_same by exact Hl.
  destruct rin1 as [ | a rin1]; [contradiction | ].
  destruct rout1 as [ | b rout1]; [discriminate Hl | ].
  destruct rin2 as [ | c rin2]; [contradiction | ].
  destruct rout2 as [ | d rout2]; [contradiction | ].
  cbn [combine app].
  change ((a, b) :: combine rin1 rout1 ++ (c, d) :: combine rin2 rout2)
    with (((a, b) :: combine rin1 rout1) ++ (c, d) :: combine rin2 rout2).
  rewrite apply_rules_app. reflexivity.
Qed.

Lemma phone2prono_app_witness :
  length ["lt,-ii,"%string] = length ["ll,-ch,ii,"%string] /\
  ["lt,-ii,"%string] <> [] /\ ["ll,-c"%string] <> [] /\ ["rr,-c"%string] <> [] /\
  phone2prono (s2l "k0,aa,lt,-ii,") ["lt,-ii,"%string] ["ll,-ch,ii,"%string] =
    re_sub "lt,-ii," "ll,-ch,ii," (s2l "k0,aa,lt,-ii,") /\
  phone2prono (s2l "k0,aa,lt,-ii,") (["lt,-ii,"%string] ++ ["ll,-c"%string])
              (["ll,-ch,ii,"%string] ++ ["rr,-c"%string]) =
    (x <- phone2prono (s2l "k0,aa,lt,-ii,") ["lt,-ii,"%string] ["ll,-ch,ii,"%string] ;;
     phone2prono x ["ll,-c"%string] ["rr,-c"%string]).
Proof.
  split; [reflexivity | ]. repeat (split; [discriminate | ]).
  pose proof (phone2prono_app (s2l "k0,aa,lt,-ii,") "lt,-ii," "ll,-ch,ii,"
                ["lt,-ii,"%string] ["ll,-ch,ii,"%string]
                ["ll,-c"%string] ["rr,-c"%string]) as [H1 H2].
  split; [exact H1 | ].
  apply H2; [reflexivity | discriminate | discriminate | discriminate].
Defined.

Lemma combine_firstn_both {A B : Type} (l : list A) :
  forall m : list B,
    combine (firstn (length m) l) (firstn (length l) m) = combine l m.
Proof.
  induction l as [ | a l IH]; intros [ | b m]; try reflexivity.
  cbn [length firstn combine]. rewrite IH. reflexivity.
Qed.

(** X6. The loop over [zip(rule_in, rule_out)] stops with the shorter of
    the two lists, and when one of them is empty [prono] is never assigned:
    the function raises UnboundLocalError. *)
Theorem phone2prono_zip (s : str) (rin rout : list string) :
  phone2prono s rin rout =
    phone2prono s (firstn (length rout) rin) (firstn (length rin) rout) /\
  (rin = [] \/ rout = [] -> phone2prono s rin rout = Raise UnboundLocalError).
Proof.
  split.
  - unfold phone2prono.
    rewrite combine_firstn_both. reflexivity.
  - intros [-> | ->]; unfold phone2prono; [reflexivity | ].
    destruct rin; reflexivity.
Qed.

Lemma phone2prono_zip_witness :
  (@nil string = [] \/ ["a"%string] = []) /\
  phone2prono (s2l "k0,") [] ["a"%string] = Raise UnboundLocalError.
Proof.
  split; [left; reflexivity | ].
  apply (proj2 (phone2prono_zip (s2l "k0,") [] ["a"%string])). left. reflexivity.
Defined.

(** ** [graph2prono] *)

(** A substitution by the empty string only deletes. *)
Lemma sub_from_deletes (r : Re.regex) (s : str) :
  forall (pre : str) (k : nat) (c : ascii),
    In c (Re.sub_from r [] pre s k) -> In c s.
Proof.
  induction s as [ | x s IH]; intros pre k c H.
  - cbn [Re.sub_from] in H. destruct k; [ | exact H].
    destruct (Re.find r pre []) as [[n cp] | ]; exact H.
  - cbn [Re.sub_from] in H. destruct k as [ | k].
    + destruct (Re.find r pre (x :: s)) as [[[ | n] cp] | ]; cbn [Re.expand app] in H.
      * destruct H as [H | H]; [left; exact H | right; exact (IH _ _ _ H)].
      * right. exact (IH _ _ _ H).
      * destruct H as [H | H]; [left; exact H | right; exact (IH _ _ _ H)].
    + right. exact (IH _ _ _ H).
Qed.

Lemma sub_from_comma_space (s pre : str) :
  ~ In "," (Re.sub_from (Re.Sym (Re.CChr ",")) [Re.TLit " "] pre s 0).
Proof.
  revert pre. induction s as [ | c s IH]; intros pre; [intros [] | ].
  cbn [Re.sub_from]. unfold Re.find. cbn [Re.bt Re.cset_mem].
  destruct (Ascii.eqb_spec c ",") as [-> | Hc]; unfold Re.stop.
  - replace (length ("," :: pre) - length pre)%nat with 1%nat by (cbn [length]; lia).
    cbn [Re.expand app]. intros [H | H]; [discriminate H | exact (IH _ H)].
  - intros [H | H]; [congruence | exact (IH _ H)].
Qed.

(** What a turn of the loop hands to the comparison holds no comma. *)
Lemma next_prono_no_comma (rin rout : list string) (p q : str) :
  next_prono rin rout p = Ok q -> ~ In "," q.
Proof.
  unfold next_prono. intros H.
  apply bind_Ok in H. destruct H as (x1 & _ & H).
  apply bind_Ok in H. destruct H as (x2 & _ & H).
  apply bind_Ok in H. destruct H as (x3 & H3 & H).
  change (re_sub "," " " x2)
    with (Ok (Re.sub_from (Re.Sym (Re.CChr ",")) [Re.TLit " "] [] x2 0)) in H3.
  injection H3 as <-.
  change (re_sub " $" "" ?y)
    with (Ok (Re.sub_from (Re.Seq (Re.Sym (Re.CChr " ")) Re.Eol) [] [] y 0)) in H.
  injection H as <-. intros Hq. apply sub_from_deletes in Hq.
  exact (sub_from_comma_space _ _ Hq).
Qed.

Lemma prono_loop_no_delimiters (rin rout : list string) (fuel : nat) :
  forall p r : str,
    prono_loop fuel rin rout p = Ok r -> ~ In "," r /\ ~ In "-" r.
Proof.
  induction fuel as [ | fuel IH]; intros p r H; [discriminate H | ].
  cbn [prono_loop] in H.
  apply bind_Ok in H. destruct H as (q & Hq & H).
  rewrite !re_sub_hyphen_empty in H. cbn [bind] in H.
  destruct (str_eqb (without "-" p) (without "-" q)); [ | exact (IH _ _ H)].
  injection H as <-. unfold without. split; intros H; apply filter_In in H.
  - exact (next_prono_no_comma _ _ _ _ Hq (proj1 H)).
  - destruct H as [_ H]. discriminate H.
Qed.

(** X7. Whatever the rule table, the string that [graph2prono] returns
    holds no comma and no hyphen. *)
Theorem graph2prono_no_delimiters
  (fuel : nat) (g : list Z) (rin rout : list string) (r : str) :
  graph2prono fuel g rin rout = Ok r -> ~ In "," r /\ ~ In "-" r.
Proof.
  unfold graph2prono. intros H.
  repeat (apply bind_Ok in H; destruct H as (? & _ & H)).
  exact (prono_loop_no_delimiters _ _ _ _ _ H).
Qed.

Lemma graph2prono_no_delimiters_witness :
  graph2prono 2 [0xD55C; 0xAD6D; 0xC5B4] rule_in rule_out =
    Ok (s2l "h0 aa nf k0 uu k0 vv") /\
  ~ In "," (s2l "h0 aa nf k0 uu k0 vv") /\ ~ In "-" (s2l "h0 aa nf k0 uu k0 vv").
Proof.
  assert (H : graph2prono 2 [0xD55C; 0xAD6D; 0xC5B4] rule_in rule_out =
              Ok (s2l "h0 aa nf k0 uu k0 vv")) by (vm_compute; reflexivity).
  split; [exact H | ].
  exact (graph2prono_no_delimiters _ _ _ _ _ H).
Defined.

(** X8. [graph2prono] does not see the characters that are neither U+0020
    nor Hangul syllables: its result is that of the input without them. *)
Theorem graph2prono_ignores_other
  (fuel : nat) (g : list Z) (rin rout : list string) :
  graph2prono fuel (filter (fun c => (c =? 32) || isHangul c) g) rin rout =
  graph2prono fuel g rin rout.
Proof.
  unfold graph2prono. rewrite !graph2phone_concat, concat_cchunk_filter. reflexivity.
Qed.

(** ** One syllable *)

Lemma tables_phones_ok :
  forallb (fun o => forallb (fun n => forallb (fun d => syllable_phones_ok o n d) COD) NUC)
          ONS = true.
Proof. vm_compute. reflexivity. Qed.

(** X9. The phones of a single Hangul syllable are its onset, nucleus and
    coda entries, without the hyphen, with the onset [oh] left out and the
    coda [oh] written [ng]. *)
Theorem graph2phone_syllable (c : Z) :
  0xAC00 <= c <= 0xD7A3 ->
  graph2phone [c] =
    Ok (romanize (nth (Z.to_nat ((c - 0xAC00) / 588)) ONS EmptyString)
                 (nth (Z.to_nat (((c - 0xAC00) mod 588) / 28)) NUC EmptyString)
                 (nth (Z.to_nat ((c - 0xAC00) mod 28)) COD EmptyString)).
Proof.
  intros Hc. rewrite graph2phone_concat. cbn [map concat]. rewrite app_nil_r.
  unfold cchunk, chunk.
  replace (c =? 32) with false by (symmetry; apply Z.eqb_neq; lia).
  replace (isHangul c) with true by (symmetry; apply isHangul_range; exact Hc).
  pose proof (indices_in_range c Hc) as H. unfold indices in H. cbv zeta in H.
  destruct H as (E1 & E2 & E3 & B1 & B2 & B3).
  change (c - 44032) with (c - 0xAC00) in *.
  rewrite E1 in B1. rewrite E2 in B2. rewrite E3 in B3.
  assert (I1 := entry_In ONS ((c - 44032) / 588) ltac:(cbn [length ONS]; lia)).
  assert (I2 := entry_In NUC ((c - 44032) mod 588 / 28) ltac:(cbn [length NUC]; lia)).
  assert (I3 := entry_In COD ((c - 44032) mod 28) ltac:(cbn [length COD]; lia)).
  pose proof tables_phones_ok as T.
  rewrite forallb_forall in T. specialize (T _ I1).
  rewrite forallb_forall in T. specialize (T _ I2).
  rewrite forallb_forall in T. specialize (T _ I3).
  unfold syllable_phones_ok in T. unfold entry.
  destruct (after_loop _) as [r | | ]; try discriminate T.
  apply str_eqb_eq in T. rewrite T. reflexivity.
Qed.

Lemma graph2phone_syllable_witness :
  0xAC00 <= 0xC559 <= 0xD7A3 /\
  graph2phone [0xC559] = Ok (s2l "aang").
Proof.
  split; [lia | ]. apply (graph2phone_syllable 0xC559). lia.
Defined.


(** ** Runs of word characters through a substitution *)

Lemma prun_app (a b : str) :
  forall st : bool,
    prun st (a ++ b) = match prun st a with
                       | Some st' => prun st' b
                       | None => None
                       end.
Proof.
  induction a as [ | c a IH]; intros st; [reflexivity | ].
  cbn [app prun]. destruct (pstep st c); [apply IH | reflexivity].
Qed.

Lemma sub_from_skip (r : Re.regex) (t : Re.template) (s : str) :
  forall (pre : str) (k : nat),
    (k <= length s)%nat ->
    Re.sub_from r t pre s k = Re.sub_from r t (rev (firstn k s) ++ pre) (skipn k s) 0.
Proof.
  induction s as [ | c s IH]; intros pre k Hk.
  - cbn [length] in Hk. replace k with 0%nat by lia. reflexivity.
  - destruct k as [ | k]; [reflexivity | ].
    cbn [length] in Hk. cbn [Re.sub_from firstn skipn rev].
    rewrite IH by lia. rewrite <- app_assoc. reflexivity.
Qed.

Section WordRuns.

Variables (r : Re.regex) (t : Re.template).

(** A match lies within the string, and its replacement moves the parity
    of the runs of word characters as the matched text does. *)
Hypothesis match_len :
  forall pre s n cp, Re.find r pre s = Some (n, cp) -> (n <= length s)%nat.

Hypothesis match_runs :
  forall pre s n cp st sm,
    Re.find r pre s = Some (n, cp) ->
    prun st (firstn n s) = Some sm -> prun st (Re.expand t cp) = Some sm.

Lemma sub_from_prun (n : nat) :
  forall (s pre : str) (st sf : bool),
    (length s <= n)%nat -> prun st s = Some sf ->
    prun st (Re.sub_from r t pre s 0) = Some sf.
Proof.
  induction n as [ | n IH]; intros s pre st sf Hn H.
  - destruct s; [ | cbn [length] in Hn; lia].
    cbn [Re.sub_from]. destruct (Re.find r pre []) as [[m cp] | ] eqn:E; [ | exact H].
    pose proof (match_len _ _ _ _ E) as Hm. cbn [length] in Hm.
    replace m with 0%nat in E by lia.
    exact (match_runs _ _ _ _ _ _ E H).
  - destruct s as [ | c s].
    + cbn [Re.sub_from]. destruct (Re.find r pre []) as [[m cp] | ] eqn:E; [ | exact H].
      pose proof (match_len _ _ _ _ E) as Hm. cbn [length] in Hm.
      replace m with 0%nat in E by lia.
      exact (match_runs _ _ _ _ _ _ E H).
    + cbn [length] in Hn. cbn [Re.sub_from].
      destruct (Re.find r pre (c :: s)) as [[[ | m] cp] | ] eqn:E.
      * rewrite prun_app, (match_runs _ _ _ _ st st E eq_refl). cbn [prun] in *.
        destruct (pstep st c) as [st' | ]; [ | discriminate H].
        apply IH; [lia | exact H].
      * pose proof (match_len _ _ _ _ E) as Hm. cbn [length] in Hm.
        rewrite <- (firstn_skipn (S m) (c :: s)) in H. rewrite prun_app in H.
        destruct (prun st (firstn (S m) (c :: s))) as [sm | ] eqn:Em; [ | discriminate H].
        rewrite prun_app, (match_runs _ _ _ _ st sm E Em).
        rewrite sub_from_skip by lia. cbn [skipn] in H.
        apply IH; [rewrite length_skipn; lia | exact H].
      * cbn [prun] in *.
        destruct (pstep st c) as [st' | ]; [ | discriminate H].
        apply IH; [lia | exact H].
Qed.

End WordRuns.

Section Alphabet.

Variables (r : Re.regex) (t : Re.template) (P : ascii -> bool).

(** A replacement is made of characters that satisfy [P] when the string
    is. *)
Hypothesis match_chars :
  forall pre s n cp,
    Re.find r pre s = Some (n, cp) -> forallb P s = true ->
    forallb P (Re.expand t cp) = true.

Lemma sub_from_chars (s : str) :
  forall (pre : str) (k : nat),
    forallb P s = true -> forallb P (Re.sub_from r t pre s k) = true.
Proof.
  induction s as [ | c s IH]; intros pre k H.
  - cbn [Re.sub_from]. destruct k; [ | reflexivity].
    destruct (Re.find r pre []) as [[m cp] | ] eqn:E; [ | reflexivity].
    apply (match_chars _ _ _ _ E). reflexivity.
  - pose proof H as Hs. cbn [forallb] in H. apply andb_true_iff in H.
    destruct H as [H1 H2].
    cbn [Re.sub_from]. destruct k as [ | k]; [ | apply IH; exact H2].
    destruct (Re.find r pre (c :: s)) as [[[ | m] cp] | ] eqn:E.
    + rewrite forallb_app, (match_chars _ _ _ _ E Hs). cbn [andb forallb].
      rewrite H1. apply IH. exact H2.
    + rewrite forallb_app, (match_chars _ _ _ _ E Hs). cbn [andb].
      apply IH. exact H2.
    + cbn [forallb]. rewrite H1. apply IH. exact H2.
Qed.

End Alphabet.

(** *** The patterns [oh-] and [oh([# ]|$)] *)

Lemma sub_2' (n : nat) : (S (S n) - n)%nat = 2%nat.
Proof. lia. Qed.

Lemma prun_oh (st : bool) : prun st ["o"; "h"] = Some st.
Proof. destruct st; reflexivity. Qed.

Lemma prun_ng (st : bool) : prun st ["n"; "g"] = Some st.
Proof. destruct st; reflexivity. Qed.

Lemma oh_hyphen_len (pre s : str) (n : nat) (cp : Re.caps) :
  Re.find re_oh_hyphen pre s = Some (n, cp) -> (n <= length s)%nat.
Proof.
  rewrite find_oh_hyphen. destruct s as [ | a [ | b [ | c s]]]; try discriminate.
  destruct (starts3 _ _ _ _); [ | discriminate]. intros [= <- _]. cbn [length]. lia.
Qed.

Lemma oh_hyphen_runs (pre s : str) (n : nat) (cp : Re.caps) (st sm : bool) :
  Re.find re_oh_hyphen pre s = Some (n, cp) ->
  prun st (firstn n s) = Some sm ->
  prun st (Re.expand [Re.TLit "n"; Re.TLit "g"; Re.TLit "-"] cp) = Some sm.
Proof.
  rewrite find_oh_hyphen. destruct s as [ | a [ | b [ | c s]]]; try discriminate.
  cbn [starts3].
  destruct (Ascii.eqb_spec a "o") as [-> | ]; [ | discriminate].
  destruct (Ascii.eqb_spec b "h") as [-> | ]; [ | discriminate].
  destruct (Ascii.eqb_spec c "-") as [-> | ]; [ | discriminate].
  intros [= <- <-] H. cbn [firstn] in H.
  change ["o"; "h"; "-"] with (["o"; "h"] ++ ["-"]) in H.
  rewrite prun_app, prun_oh in H.
  cbn [Re.expand]. change ["n"; "g"; "-"] with (["n"; "g"] ++ ["-"]).
  rewrite prun_app, prun_ng. exact H.
Qed.

Lemma find_oh_end_cases (pre s : str) (n : nat) (cp : Re.caps) :
  Re.find re_oh_end pre s = Some (n, cp) ->
  exists rest,
    s = "o" :: "h" :: rest /\
    (n = 2%nat \/
     (n = 3%nat /\ exists c rest', rest = c :: rest' /\ (c = "#" \/ c = " "))).
Proof.
  unfold Re.find, re_oh_end. destruct s as [ | a [ | b rest]]; cbn [Re.bt Re.cset_mem].
  - discriminate.
  - destruct (Ascii.eqb a "o"); discriminate.
  - destruct (Ascii.eqb_spec a "o") as [-> | ]; [ | discriminate].
    destruct (Ascii.eqb_spec b "h") as [-> | ]; [ | discriminate].
    intros H. exists rest. split; [reflexivity | ].
    destruct rest as [ | c rest'].
    + unfold Re.stop in H. cbn [length] in H. rewrite sub_2' in H.
      injection H as <- _. left. reflexivity.
    + cbn [Re.mem_ascii] in H.
      destruct (Ascii.eqb_spec c "#") as [-> | _].
      { unfold Re.stop in H. cbn [orb length] in H. rewrite sub_3 in H.
        injection H as <- _. right. split; [reflexivity | ].
        exists "#", rest'. auto. }
      destruct (Ascii.eqb_spec c " ") as [-> | _].
      { unfold Re.stop in H. cbn [orb length] in H. rewrite sub_3 in H.
        injection H as <- _. right. split; [reflexivity | ].
        exists " ", rest'. auto. }
      cbn [orb] in H. destruct rest' as [ | d rest'']; [ | discriminate H].
      destruct (Ascii.eqb c Re.newline); [ | discriminate H].
      unfold Re.stop in H. cbn [length] in H. rewrite sub_2' in H.
      injection H as <- _. left. reflexivity.
Qed.

Lemma oh_end_len (pre s : str) (n : nat) (cp : Re.caps) :
  Re.find re_oh_end pre s = Some (n, cp) -> (n <= length s)%nat.
Proof.
  intros H. apply find_oh_end_cases in H.
  destruct H as (rest & -> & [-> | (-> & c & rest' & -> & _)]); cbn [length]; lia.
Qed.

Lemma oh_end_runs (pre s : str) (n : nat) (cp : Re.caps) (st sm : bool) :
  Re.find re_oh_end pre s = Some (n, cp) ->
  prun st (firstn n s) = Some sm ->
  prun st (Re.expand [Re.TLit "n"; Re.TLit "g"] cp) = Some sm.
Proof.
  intros H Hr. apply find_oh_end_cases in H. cbn [Re.expand]. rewrite prun_ng.
  destruct H as (rest & -> & [-> | (-> & c & rest' & -> & Hc)]).
  - cbn [firstn] in Hr. rewrite prun_oh in Hr. exact Hr.
  - cbn [firstn] in Hr. change ["o"; "h"; c] with (["o"; "h"] ++ [c]) in Hr.
    rewrite prun_app, prun_oh in Hr.
    destruct Hc as [-> | ->]; destruct st; try discriminate Hr; exact Hr.
Qed.

(** *** The pattern [(\W+)\-] *)

Lemma plus_run_class (a : Re.cset) (k : Re.cont) (cp : Re.caps) (m : Re.mstate) (s : str) :
  forall pre : str,
    Re.plus_run a pre s cp k = Some m ->
    exists j : nat,
      (1 <= j <= length s)%nat /\
      forallb (Re.cset_mem a) (firstn j s) = true /\
      k (rev (firstn j s) ++ pre) (skipn j s) cp = Some m.
Proof.
  induction s as [ | c s IH]; intros pre H; [discriminate | ].
  cbn [Re.plus_run] in H. destruct (Re.cset_mem a c) eqn:Ec; [ | discriminate].
  destruct (Re.plus_run a (c :: pre) s cp k) as [m' | ] eqn:E.
  - injection H as ->. destruct (IH _ E) as (j & Hj & Ha & Hk).
    exists (S j). split; [cbn [length]; lia | ].
    cbn [firstn skipn rev forallb]. rewrite Ec, Ha, <- app_assoc. auto.
  - exists 1%nat. split; [cbn [length]; lia | ].
    cbn [firstn skipn rev forallb app]. rewrite Ec. auto.
Qed.

Lemma find_nonword_hyphen_cases (pre s : str) (n : nat) (cp : Re.caps) :
  Re.find re_nonword_hyphen pre s = Some (n, cp) ->
  exists j : nat,
    (1 <= j)%nat /\ (S j <= length s)%nat /\ n = S j /\
    all_nonword (firstn j s) = true /\
    firstn (S j) s = firstn j s ++ ["-"] /\
    Re.expand [Re.TRef 1] cp = firstn j s.
Proof.
  unfold Re.find, re_nonword_hyphen. cbn [Re.bt].
  destruct (Re.plus_run _ _ _ _ _) as [[[pre' s'] cp'] | ] eqn:E; [ | discriminate].
  intros [= <- <-]. apply plus_run_class in E. destruct E as (j & Hj & Ha & Hk).
  exists j.
  destruct (skipn j s) as [ | c u] eqn:Es; [discriminate | ].
  cbn [Re.cset_mem] in Hk. destruct (Ascii.eqb_spec c "-") as [-> | ]; [ | discriminate].
  unfold Re.stop in Hk. injection Hk as <- _ <-.
  assert (Hl : (S j <= length s)%nat).
  { assert (Hs : length (skipn j s) = S (length u)) by (rewrite Es; reflexivity).
    rewrite length_skipn in Hs. lia. }
  assert (Hf : firstn (S j) s = firstn j s ++ ["-"]).
  { rewrite <- (firstn_skipn j s) at 1. rewrite Es.
    rewrite firstn_app, length_firstn.
    replace (S j - Nat.min j (length s))%nat with 1%nat by lia.
    rewrite firstn_all2 by (rewrite length_firstn; lia). reflexivity. }
  repeat split; try assumption; try lia.
  - cbn [length]. rewrite length_app, length_rev, length_firstn. lia.
  - cbn [Re.expand Re.lookup Nat.eqb]. rewrite app_nil_r.
    rewrite length_app, length_rev, firstn_length_le by lia.
    replace (j + length pre - length pre)%nat with (length (rev (firstn j s)))
      by (rewrite length_rev, firstn_length_le; lia).
    rewrite firstn_app, Nat.sub_diag, firstn_all. cbn [firstn].
    rewrite app_nil_r. apply rev_involutive.
Qed.

(** Non-word characters are read from an even parity only, and leave
    it. *)
Lemma prun_nonword (u : str) :
  all_nonword u = true -> u <> [] ->
  forall st : bool, prun st u = if st then None else Some false.
Proof.
  induction u as [ | c u IH]; intros Ha Hn st; [contradiction | ].
  cbn [all_nonword forallb] in Ha. apply andb_true_iff in Ha. destruct Ha as [Hc Ha].
  apply negb_true_iff in Hc. cbn [prun]. unfold pstep. rewrite Hc.
  destruct st; [reflexivity | ].
  destruct u as [ | d u]; [reflexivity | ].
  rewrite (IH Ha ltac:(discriminate)). reflexivity.
Qed.

Lemma nonword_hyphen_len (pre s : str) (n : nat) (cp : Re.caps) :
  Re.find re_nonword_hyphen pre s = Some (n, cp) -> (n <= length s)%nat.
Proof.
  intros H. apply find_nonword_hyphen_cases in H.
  destruct H as (j & _ & Hl & -> & _). exact Hl.
Qed.

Lemma nonword_hyphen_runs (pre s : str) (n : nat) (cp : Re.caps) (st sm : bool) :
  Re.find re_nonword_hyphen pre s = Some (n, cp) ->
  prun st (firstn n s) = Some sm -> prun st (Re.expand [Re.TRef 1] cp) = Some sm.
Proof.
  intros H Hr. apply find_nonword_hyphen_cases in H.
  destruct H as (j & Hj & Hl & -> & Ha & Hf & ->).
  assert (Hn : firstn j s <> []).
  { intros E. apply (f_equal (@length ascii)) in E.
    rewrite firstn_length_le in E by lia. cbn [length] in E. lia. }
  rewrite Hf, prun_app, (prun_nonword _ Ha Hn) in Hr.
  rewrite (prun_nonword _ Ha Hn).
  destruct st; [discriminate Hr | exact Hr].
Qed.

Lemma nonword_hyphen_chars (P : ascii -> bool) (pre s : str) (n : nat) (cp : Re.caps) :
  Re.find re_nonword_hyphen pre s = Some (n, cp) -> forallb P s = true ->
  forallb P (Re.expand [Re.TRef 1] cp) = true.
Proof.
  intros H Hs. apply find_nonword_hyphen_cases in H.
  destruct H as (j & _ & _ & _ & _ & _ & ->).
  rewrite <- (firstn_skipn j s), forallb_app in Hs.
  apply andb_true_iff in Hs. exact (proj1 Hs).
Qed.

(** *** The last two substitutions *)

Lemma rstrip_nonword_split (s : str) :
  exists u : str, s = rstrip_nonword s ++ u /\ all_nonword u = true.
Proof.
  induction s as [ | c s IH]; [exists []; split; reflexivity | ].
  cbn [rstrip_nonword]. destruct (all_nonword (c :: s)) eqn:E.
  - exists (c :: s). split; [reflexivity | exact E].
  - destruct IH as (u & Hu & Ha). exists u. split; [ | exact Ha].
    cbn [app]. rewrite <- Hu. reflexivity.
Qed.

Lemma rstrip_nonword_runs (s : str) :
  prun false s = Some false -> prun false (rstrip_nonword s) = Some false.
Proof.
  intros H. destruct (rstrip_nonword_split s) as (u & Hu & Ha).
  rewrite Hu, prun_app in H.
  destruct (prun false (rstrip_nonword s)) as [sm | ]; [ | discriminate H].
  destruct u as [ | c u]; [exact H | ].
  rewrite (prun_nonword _ Ha ltac:(discriminate)) in H.
  destruct sm; [discriminate H | reflexivity].
Qed.

Lemma rstrip_nonword_chars (P : ascii -> bool) (s : str) :
  forallb P s = true -> forallb P (rstrip_nonword s) = true.
Proof.
  intros H. destruct (rstrip_nonword_split s) as (u & Hu & _).
  rewrite Hu, forallb_app in H. apply andb_true_iff in H. exact (proj1 H).
Qed.

(** ** The phones of [graph2phone] come in pairs *)

Lemma tables_runs_ok :
  forallb (fun o => forallb (fun n => forallb (fun d => syllable_runs_ok o n d) COD) NUC)
          ONS = true.
Proof. vm_compute. reflexivity. Qed.

Lemma cchunk_runs (c : Z) :
  prun false (cchunk c) = Some false /\ forallb phone_char (cchunk c) = true.
Proof.
  unfold cchunk, chunk. destruct (c =? 32); [split; reflexivity | ].
  destruct (isHangul c) eqn:E; [ | split; reflexivity].
  apply isHangul_range in E.
  pose proof (indices_in_range c E) as H. unfold indices in H. cbv zeta in H.
  destruct H as (E1 & E2 & E3 & B1 & B2 & B3).
  change (c - 44032) with (c - 0xAC00) in *.
  rewrite E1 in B1. rewrite E2 in B2. rewrite E3 in B3.
  assert (I1 := entry_In ONS ((c - 44032) / 588) ltac:(cbn [length ONS]; lia)).
  assert (I2 := entry_In NUC ((c - 44032) mod 588 / 28) ltac:(cbn [length NUC]; lia)).
  assert (I3 := entry_In COD ((c - 44032) mod 28) ltac:(cbn [length COD]; lia)).
  pose proof tables_runs_ok as T.
  rewrite forallb_forall in T. specialize (T _ I1).
  rewrite forallb_forall in T. specialize (T _ I2).
  rewrite forallb_forall in T. specialize (T _ I3).
  unfold syllable_runs_ok, even_runs in T. cbv zeta in T.
  apply andb_true_iff in T. destruct T as [T1 T2]. unfold entry.
  split; [ | exact T2].
  destruct (prun false _) as [[ | ] | ]; try discriminate T1. reflexivity.
Qed.

Lemma concat_cchunk_runs (g : list Z) :
  prun false (concat (map cchunk g)) = Some false /\
  forallb phone_char (concat (map cchunk g)) = true.
Proof.
  induction g as [ | c g [IH1 IH2]]; [split; reflexivity | ].
  destruct (cchunk_runs c) as [H1 H2]. cbn [map concat].
  rewrite prun_app, H1, forallb_app, H2. auto.
Qed.

Lemma after_loop_runs (phones : str) :
  has3 "-" "o" "h" phones = false -> head_ok phones = true ->
  prun false phones = Some false -> forallb phone_char phones = true ->
  exists out : str,
    after_loop phones = Ok out /\
    prun false out = Some false /\
    forallb phone_char out = true /\
    (out = [] \/ Re.is_word (last out "a") = true).
Proof.
  intros Hc Hh Hr Hp. unfold after_loop.
  rewrite re_sub_bol_oh by (apply head_ok_opens; exact Hh). cbn [bind].
  rewrite re_sub_hyphen_oh_empty. cbn [bind].
  rewrite replace3_clean by exact Hc.
  destruct (re_sub_oh_hyphen_head _ Hh) as (x4 & E4 & H4).
  rewrite E4. cbn [bind].
  change (re_sub "oh-" "ng-" phones)
    with (Ok (Re.sub_from re_oh_hyphen [Re.TLit "n"; Re.TLit "g"; Re.TLit "-"] [] phones 0))
    in E4.
  injection E4 as E4.
  assert (R4 : prun false x4 = Some false).
  { rewrite <- E4.
    apply (sub_from_prun _ _ oh_hyphen_len oh_hyphen_runs (length phones)); [lia | exact Hr]. }
  assert (P4 : forallb phone_char x4 = true).
  { rewrite <- E4. apply sub_from_chars; [ | exact Hp]. reflexivity. }
  destruct (re_sub_oh_end_head _ H4) as (x5 & E5 & H5).
  rewrite E5. cbn [bind].
  change (re_sub "oh([# ]|$)" "ng" x4)
    with (Ok (Re.sub_from re_oh_end [Re.TLit "n"; Re.TLit "g"] [] x4 0)) in E5.
  injection E5 as E5.
  assert (R5 : prun false x5 = Some false).
  { rewrite <- E5.
    apply (sub_from_prun _ _ oh_end_len oh_end_runs (length x4)); [lia | exact R4]. }
  assert (P5 : forallb phone_char x5 = true).
  { rewrite <- E5. apply sub_from_chars; [ | exact P4]. reflexivity. }
  destruct (re_sub_nonword_hyphen_head _ H5) as (x6 & E6 & H6).
  rewrite E6. cbn [bind].
  change (re_sub "(\W+)\-" "\1" x5)
    with (Ok (Re.sub_from re_nonword_hyphen [Re.TRef 1] [] x5 0)) in E6.
  injection E6 as E6.
  assert (R6 : prun false x6 = Some false).
  { rewrite <- E6.
    apply (sub_from_prun _ _ nonword_hyphen_len nonword_hyphen_runs (length x5));
      [lia | exact R5]. }
  assert (P6 : forallb phone_char x6 = true).
  { rewrite <- E6. apply sub_from_chars; [ | exact P5].
    intros pre s n cp. apply nonword_hyphen_chars. }
  rewrite re_sub_nonword_end. cbn [bind].
  rewrite re_sub_bol_hyphen. cbn [bind].
  eexists. split; [reflexivity | ].
  pose proof (rstrip_nonword_head x6 H6) as Hy.
  pose proof (rstrip_nonword_last x6) as Hl.
  pose proof (rstrip_nonword_runs x6 R6) as Ry.
  pose proof (rstrip_nonword_chars phone_char x6 P6) as Py.
  destruct (head_ok_inv _ Hy) as [E | [(u & E) | (w & u & E & Hw)]]; rewrite E in *.
  - repeat split; auto.
  - cbn [drop_leading_hyphen Ascii.eqb]. repeat split; auto.
  - cbn [drop_leading_hyphen]. change (Ascii.eqb "-" "-") with true. cbv iota.
    split; [exact Ry | ]. split.
    + cbn [forallb] in Py. apply andb_true_iff in Py. exact (proj2 Py).
    + destruct Hl as [Hl | Hl]; [discriminate Hl | ]. right. exact Hl.
Qed.

Lemma graph2phone_runs (g : list Z) :
  exists out : str,
    graph2phone g = Ok out /\
    prun false out = Some false /\
    forallb phone_char out = true /\
    (out = [] \/ Re.is_word (last out "a") = true).
Proof.
  rewrite graph2phone_concat. destruct (concat_cchunk_runs g) as [H1 H2].
  apply after_loop_runs.
  - exact (proj2 (g2p_loop_concat g [] eq_refl)).
  - apply concat_cchunk_head.
  - exact H1.
  - exact H2.
Qed.

(** X10. On every input [graph2phone] returns a string of lower-case
    letters, [0], [-] and [#] in which every maximal run of word characters
    has an even length: between the boundary markers the phones come as
    pairs of characters. *)
Theorem graph2phone_phone_pairs (g : list Z) :
  exists out : str,
    graph2phone g = Ok out /\
    even_runs out = true /\
    forallb phone_char out = true.
Proof.
  destruct (graph2phone_runs g) as (out & E & Hr & Hp & _).
  exists out. unfold even_runs. rewrite Hr. auto.
Qed.

(** ** [addPhoneBoundary] after [graph2phone] *)

Lemma word_not_sep (c : ascii) : Re.is_word c = true -> is_sep c = false.
Proof.
  intros H. unfold is_sep.
  destruct (Ascii.eqb_spec c "-") as [-> | _]; [discriminate H | ].
  destruct (Ascii.eqb_spec c " ") as [-> | _]; [discriminate H | ].
  destruct (Ascii.eqb_spec c "#") as [-> | _]; [discriminate H | ].
  reflexivity.
Qed.

(** A string of even runs that ends with a word character has a word
    character before it. *)
Lemma prun_penult (s : str) :
  forall st : bool,
    prun st s = Some false -> Re.is_word (last s "a") = true -> penult_ok s = true.
Proof.
  induction s as [ | p t IH]; intros st H Hl; [reflexivity | ].
  destruct t as [ | q [ | e t']].
  - reflexivity.
  - cbn [penult_ok]. cbn [last] in Hl. cbn [prun] in H. unfold pstep in H.
    rewrite Hl in H. destruct (Re.is_word p) eqn:Ep.
    + rewrite (word_not_sep p Ep). reflexivity.
    + destruct st; discriminate H.
  - rewrite penult_ok_cons by (cbn [length]; lia).
    cbn [prun] in H. destruct (pstep st p) as [st' | ]; [ | discriminate H].
    apply (IH st'); [exact H | exact Hl].
Qed.

(** X11. [addPhoneBoundary] returns on every string that [graph2phone]
    returns: the first two steps of [graph2prono] raise on no input. *)
Theorem addPhoneBoundary_after_graph2phone (g : list Z) :
  exists p r : str, graph2phone g = Ok p /\ addPhoneBoundary p = Ok r.
Proof.
  destruct (graph2phone_runs g) as (p & E & Hr & _ & Hl).
  exists p. rewrite addPhoneBoundary_segment.
  destruct (segment_penult (length p) p (le_n _)) as (r & Hs).
  - destruct Hl as [-> | Hl]; [reflexivity | ].
    exact (prun_penult p false Hr Hl).
  - exists r. split; [exact E | exact Hs].
Qed.

(** ** [runKoG2P] raises no exception *)

Lemma next_prono_table (p : str) :
  exists q : str, next_prono rule_in rule_out p = Ok q.
Proof.
  unfold next_prono.
  destruct (re_sub_compiles " " "," (p ++ [","]) eq_refl) as (x1 & ->). cbn [bind].
  destruct (phone2prono_compiles rule_in rule_out x1
              rule_table_nonempty rule_table_compiles) as (x2 & ->). cbn [bind].
  destruct (re_sub_compiles "," " " x2 eq_refl) as (x3 & ->). cbn [bind].
  apply re_sub_compiles. reflexivity.
Qed.

Lemma prono_loop_table (fuel : nat) :
  forall (p : str) (e : exn), prono_loop fuel rule_in rule_out p <> Raise e.
Proof.
  induction fuel as [ | fuel IH]; intros p e; [discriminate | ].
  cbn [prono_loop]. destruct (next_prono_table p) as (q & ->). cbn [bind].
  rewrite !re_sub_hyphen_empty. cbn [bind].
  destruct (str_eqb _ _); [discriminate | apply IH].
Qed.

(** X12. [runKoG2P] raises no exception, whatever the input and however
    many turns its loop takes: no index is out of range in [graph2phone]
    and [addPhoneBoundary], [re.sub] accepts every pattern and template,
    and [prono] is bound when [phone2prono] returns. *)
Theorem runKoG2P_raises_nothing (fuel : nat) (g : list Z) (e : exn) :
  runKoG2P fuel g <> Raise e.
Proof.
  unfold runKoG2P, graph2prono.
  destruct (graph2phone_runs g) as (p & -> & Hr & _ & Hl). cbn [bind].
  assert (Hs : exists r, addPhoneBoundary p = Ok r).
  { rewrite addPhoneBoundary_segment. apply (segment_penult (length p) p (le_n _)).
    destruct Hl as [-> | Hl]; [reflexivity | ].
    exact (prun_penult p false Hr Hl). }
  destruct Hs as (r & ->). cbn [bind].
  destruct (phone2prono_compiles rule_in rule_out r
              rule_table_nonempty rule_table_compiles) as (x1 & ->). cbn [bind].
  destruct (re_sub_compiles "," " " x1 eq_refl) as (x2 & ->). cbn [bind].
  destruct (re_sub_compiles " $" "" x2 eq_refl) as (x3 & ->). cbn [bind].
  destruct (re_sub_compiles "#" "-" x3 eq_refl) as (x4 & ->). cbn [bind].
  destruct (re_sub_compiles "-+" "-" x4 eq_refl) as (x5 & ->). cbn [bind].
  apply prono_loop_table.
Qed.

(** ** [addPhoneBoundary] on strings of phone pairs *)

Lemma phone_char_cases (c : ascii) :
  phone_char c = true ->
  (is_marker c = true /\ is_sep c = true /\ Re.is_word c = false /\ sep_copy c = [c]) \/
  (is_marker c = false /\ is_sep c = false /\ Re.is_word c = true).
Proof.
  unfold phone_char, is_marker, is_sep, sep_copy.
  destruct (Ascii.eqb_spec c "-") as [-> | N1]; [left; repeat split | ].
  destruct (Ascii.eqb_spec c "#") as [-> | N2]; [left; repeat split | ].
  destruct (Ascii.eqb_spec c " ") as [-> | N3]; [discriminate | ].
  cbn [orb]. rewrite orb_false_r. intros H. right. repeat split.
  unfold Re.is_word. apply orb_true_iff in H. destruct H as [H | H].
  - rewrite H. reflexivity.
  - apply Ascii.eqb_eq in H. subst c. reflexivity.
Qed.

Lemma segment_commas_pairs (n : nat) :
  forall s : str,
    (length s <= n)%nat ->
    forallb phone_char s = true -> prun false s = Some false ->
    lone_markers s = true -> is_marker (last s "a") = false ->
    segment s = Ok (commas false s).
Proof.
  induction n as [ | n IH]; intros s Hn Hp Hr Hm Hl.
  - destruct s; [reflexivity | cbn [length] in Hn; lia].
  - destruct s as [ | c [ | d t]]; [reflexivity | | ].
    + cbn [forallb] in Hp. apply andb_true_iff in Hp. destruct Hp as [Hc _].
      cbn [last] in Hl. cbn [prun] in Hr. unfold pstep in Hr.
      destruct (phone_char_cases c Hc) as [(M & _) | (_ & _ & W)]; [congruence | ].
      rewrite W in Hr. discriminate Hr.
    + cbn [length] in Hn. cbn [forallb] in Hp.
      apply andb_true_iff in Hp. destruct Hp as [Hc Hp].
      apply andb_true_iff in Hp. destruct Hp as [Hd Hp].
      cbn [lone_markers] in Hm.
      apply andb_true_iff in Hm. destruct Hm as [Mc Hm].
      cbn [segment commas].
      destruct (phone_char_cases c Hc) as [(M & S & W & C) | (M & S & W)];
        rewrite S, W.
      * rewrite M in Mc. cbn [andb negb] in Mc. apply negb_true_iff in Mc.
        destruct (phone_char_cases d Hd) as [(M' & _) | (_ & _ & W')]; [congruence | ].
        cbn [prun] in Hr. unfold pstep in Hr. rewrite W, W' in Hr. cbn [negb] in Hr.
        destruct t as [ | e t']; [discriminate Hr | ].
        cbn [forallb] in Hp. apply andb_true_iff in Hp. destruct Hp as [He Hp].
        cbn [prun] in Hr. unfold pstep in Hr.
        destruct (phone_char_cases e He) as [(_ & _ & W'' & _) | (M'' & _ & W'')];
          rewrite W'' in Hr; [discriminate Hr | ].
        cbn [negb] in Hr. rewrite W'. cbn [commas]. rewrite W''.
        cbn [lone_markers] in Hm.
        apply andb_true_iff in Hm. destruct Hm as [_ Hm].
        apply andb_true_iff in Hm. destruct Hm as [_ Hm].
        rewrite (IH t'); [rewrite C; reflexivity | | exact Hp | exact Hr | exact Hm | ].
        -- cbn [length] in Hn. lia.
        -- destruct t' as [ | f t'']; [reflexivity | exact Hl].
      * cbn [prun] in Hr. unfold pstep in Hr. rewrite W in Hr. cbn [negb] in Hr.
        destruct (phone_char_cases d Hd) as [(_ & _ & W' & _) | (_ & _ & W')];
          rewrite W' in Hr; [discriminate Hr | ].
        cbn [negb] in Hr. rewrite W'.
        cbn [lone_markers] in Hm.
        apply andb_true_iff in Hm. destruct Hm as [_ Hm].
        rewrite (IH t); [reflexivity | lia | exact Hp | exact Hr | exact Hm | ].
        destruct t as [ | e t']; [reflexivity | exact Hl].
Qed.

(** X13. On a string of phone characters in which the runs of word
    characters have an even length, no boundary marker is next to another
    and the last character is no marker, [addPhoneBoundary] does what its
    comment says: it adds a comma after every second word character, and
    nothing else. *)
Theorem addPhoneBoundary_commas (s : str) :
  forallb phone_char s = true -> even_runs s = true ->
  lone_markers s = true -> is_marker (last s "a") = false ->
  addPhoneBoundary s = Ok (commas false s).
Proof.
  intros Hp Hr Hm Hl. rewrite addPhoneBoundary_segment.
  apply (segment_commas_pairs (length s)); try assumption; [lia | ].
  unfold even_runs in Hr. destruct (prun false s) as [[ | ] | ]; try discriminate Hr.
  reflexivity.
Qed.

Lemma addPhoneBoundary_commas_witness :
  addPhoneBoundary (s2l "#h0aanf-k0uukf") = Ok (s2l "#h0,aa,nf,-k0,uu,kf,").
Proof.
  apply (addPhoneBoundary_commas (s2l "#h0aanf-k0uukf")); reflexivity.
Defined.

(** ** Boundary markers through the substitutions *)

Lemma bstep_dom (si so si' : bstate) (c : ascii) :
  bdom si so -> bstep si c = Some si' ->
  exists so', bstep so c = Some so' /\ bdom si' so'.
Proof.
  unfold bdom. intros [-> | ->] H.
  - exists si'. auto.
  - exists si'. split; [ | left; reflexivity].
    unfold bstep in *. destruct (Ascii.eqb c "#").
    + destruct si; try discriminate H. exact H.
    + destruct (Ascii.eqb c "-"); [ | exact H].
      destruct si; try discriminate H; exact H.
Qed.

Lemma brun_app (a b : str) :
  forall st : bstate,
    brun st (a ++ b) = match brun st a with
                       | Some st' => brun st' b
                       | None => None
                       end.
Proof.
  induction a as [ | c a IH]; intros st; [reflexivity | ].
  cbn [app brun]. destruct (bstep st c); [apply IH | reflexivity].
Qed.

Section MarkerRuns.

Variables (r : Re.regex) (t : Re.template).

(** A match lies within the string, and after its replacement the markers
    can go on at least as they could after the matched text. *)
Hypothesis match_len :
  forall pre s n cp, Re.find r pre s = Some (n, cp) -> (n <= length s)%nat.

Hypothesis match_marks :
  forall pre s n cp si so sm,
    Re.find r pre s = Some (n, cp) -> bdom si so ->
    brun si (firstn n s) = Some sm ->
    exists so', brun so (Re.expand t cp) = Some so' /\ bdom sm so'.

Lemma sub_from_brun (n : nat) :
  forall (s pre : str) (si so sf : bstate),
    (length s <= n)%nat -> bdom si so -> brun si s = Some sf ->
    exists sf', brun so (Re.sub_from r t pre s 0) = Some sf' /\ bdom sf sf'.
Proof.
  induction n as [ | n IH]; intros s pre si so sf Hn Hd H.
  - destruct s; [ | cbn [length] in Hn; lia].
    cbn [Re.sub_from]. destruct (Re.find r pre []) as [[m cp] | ] eqn:E.
    + pose proof (match_len _ _ _ _ E) as Hm. cbn [length] in Hm.
      replace m with 0%nat in E by lia.
      exact (match_marks _ _ _ _ _ _ _ E Hd H).
    + injection H as <-. exists so. split; [reflexivity | exact Hd].
  - destruct s as [ | c s].
    + cbn [Re.sub_from]. destruct (Re.find r pre []) as [[m cp] | ] eqn:E.
      * pose proof (match_len _ _ _ _ E) as Hm. cbn [length] in Hm.
        replace m with 0%nat in E by lia.
        exact (match_marks _ _ _ _ _ _ _ E Hd H).
      * injection H as <-. exists so. split; [reflexivity | exact Hd].
    + cbn [length] in Hn. cbn [Re.sub_from].
      destruct (Re.find r pre (c :: s)) as [[[ | m] cp] | ] eqn:E.
      * destruct (match_marks _ _ _ _ si so si E Hd eq_refl) as (so1 & H1 & Hd1).
        rewrite brun_app, H1. cbn [brun] in *.
        destruct (bstep si c) as [si' | ] eqn:Ec; [ | discriminate H].
        destruct (bstep_dom _ _ _ _ Hd1 Ec) as (so' & -> & Hd').
        apply (IH s (c :: pre) si' so' sf); [lia | exact Hd' | exact H].
      * pose proof (match_len _ _ _ _ E) as Hm. cbn [length] in Hm.
        rewrite <- (firstn_skipn (S m) (c :: s)) in H. rewrite brun_app in H.
        destruct (brun si (firstn (S m) (c :: s))) as [sm | ] eqn:Em; [ | discriminate H].
        destruct (match_marks _ _ _ _ si so sm E Hd Em) as (so1 & H1 & Hd1).
        rewrite brun_app, H1. rewrite sub_from_skip by lia.
        cbn [skipn] in H.
        apply (IH (skipn m s) _ sm so1 sf); [ | exact Hd1 | exact H].
        rewrite length_skipn. lia.
      * cbn [brun] in *.
        destruct (bstep si c) as [si' | ] eqn:Ec; [ | discriminate H].
        destruct (bstep_dom _ _ _ _ Hd Ec) as (so' & -> & Hd').
        apply (IH s (c :: pre) si' so' sf); [lia | exact Hd' | exact H].
Qed.

End MarkerRuns.

Lemma brun_oh (st : bstate) : brun st ["o"; "h"] = Some BA.
Proof. reflexivity. Qed.

Lemma brun_ng (st : bstate) : brun st ["n"; "g"] = Some BA.
Proof. reflexivity. Qed.

Lemma oh_hyphen_marks (pre s : str) (n : nat) (cp : Re.caps) (si so sm : bstate) :
  Re.find re_oh_hyphen pre s = Some (n, cp) -> bdom si so ->
  brun si (firstn n s) = Some sm ->
  exists so',
    brun so (Re.expand [Re.TLit "n"; Re.TLit "g"; Re.TLit "-"] cp) = Some so' /\
    bdom sm so'.
Proof.
  rewrite find_oh_hyphen. destruct s as [ | a [ | b [ | c s]]]; try discriminate.
  cbn [starts3].
  destruct (Ascii.eqb_spec a "o") as [-> | ]; [ | discriminate].
  destruct (Ascii.eqb_spec b "h") as [-> | ]; [ | discriminate].
  destruct (Ascii.eqb_spec c "-") as [-> | ]; [ | discriminate].
  intros [= <- <-] _ H. cbn [firstn] in H.
  change ["o"; "h"; "-"] with (["o"; "h"] ++ ["-"]) in H.
  rewrite brun_app, brun_oh in H. injection H as <-.
  exists BD. split; [reflexivity | left; reflexivity].
Qed.

Lemma oh_end_marks (pre s : str) (n : nat) (cp : Re.caps) (si so sm : bstate) :
  Re.find re_oh_end pre s = Some (n, cp) -> bdom si so ->
  brun si (firstn n s) = Some sm ->
  exists so', brun so (Re.expand [Re.TLit "n"; Re.TLit "g"] cp) = Some so' /\ bdom sm so'.
Proof.
  intros H _ Hr. cbn [Re.expand]. rewrite brun_ng.
  exists BA. split; [reflexivity | right; reflexivity].
Qed.

(** *** The pattern [(\W+)\-] on a string of phones *)

Lemma word_bstep (st : bstate) (w : ascii) :
  Re.is_word w = true -> bstep st w = Some BA.
Proof.
  intros H. destruct (word_not_marker w H) as [E1 E2].
  unfold bstep. rewrite E2, E1. reflexivity.
Qed.

Lemma is_marker_cases (c : ascii) : is_marker c = true -> c = "-" \/ c = "#".
Proof.
  unfold is_marker.
  destruct (Ascii.eqb_spec c "-") as [-> | _]; [auto | ].
  destruct (Ascii.eqb_spec c "#") as [-> | _]; [auto | discriminate].
Qed.

(** How a string of phones with well-placed markers starts. *)
Lemma marks_cases (s : str) (sf : bstate) :
  forallb phone_char s = true -> brun BA s = Some sf -> sf <> BD ->
  s = [] \/
  (exists w t,
     s = w :: t /\ Re.is_word w = true /\
     forallb phone_char t = true /\ brun BA t = Some sf) \/
  s = ["#"] \/
  (exists m w t,
     s = m :: w :: t /\ is_marker m = true /\ Re.is_word w = true /\
     forallb phone_char (w :: t) = true /\ brun BA (w :: t) = Some sf) \/
  (exists w t,
     s = "#" :: "-" :: w :: t /\ Re.is_word w = true /\
     forallb phone_char (w :: t) = true /\ brun BA (w :: t) = Some sf).
Proof.
  intros Hp Hr Hf. destruct s as [ | c t]; [left; reflexivity | right].
  cbn [forallb] in Hp. apply andb_true_iff in Hp. destruct Hp as [Hc Hp].
  destruct (phone_char_cases c Hc) as [(M & _ & W & _) | (_ & _ & W)].
  - right. destruct t as [ | d t'].
    + destruct (is_marker_cases c M) as [-> | ->].
      * injection Hr as <-. contradiction.
      * left. reflexivity.
    + right. pose proof Hp as Hp'. cbn [forallb] in Hp'.
      apply andb_true_iff in Hp'. destruct Hp' as [Hd Hp'].
      destruct (phone_char_cases d Hd) as [(M' & _ & W' & _) | (_ & _ & W')].
      * right.
        destruct (is_marker_cases c M) as [-> | ->];
          destruct (is_marker_cases d M') as [-> | ->]; try discriminate Hr.
        destruct t' as [ | e t'']; [injection Hr as <-; contradiction | ].
        pose proof Hp' as Hp''. cbn [forallb] in Hp''.
        apply andb_true_iff in Hp''. destruct Hp'' as [He _].
        destruct (phone_char_cases e He) as [(M'' & _) | (_ & _ & W'')].
        -- destruct (is_marker_cases e M'') as [-> | ->]; discriminate Hr.
        -- exists e, t''. split; [reflexivity | ]. split; [exact W'' | ].
           split; [exact Hp' | ].
           change (brun BA ("#" :: "-" :: e :: t'')) with (brun BD (e :: t'')) in Hr.
           cbn [brun] in *. rewrite word_bstep in * by exact W''. exact Hr.
      * left. exists c, d, t'. split; [reflexivity | ].
        split; [exact M | ]. split; [exact W' | ]. split; [exact Hp | ].
        cbn [brun] in Hr. destruct (bstep BA c) as [st | ]; [ | discriminate Hr].
        cbn [brun] in *. rewrite word_bstep in * by exact W'. exact Hr.
  - left. exists c, t. split; [reflexivity | ]. split; [exact W | ].
    split; [exact Hp | ].
    cbn [brun] in Hr. rewrite word_bstep in Hr by exact W. exact Hr.
Qed.

Lemma find_nonword_hyphen_nil (pre : str) : Re.find re_nonword_hyphen pre [] = None.
Proof. reflexivity. Qed.

Lemma find_nonword_hyphen_word (pre : str) (w : ascii) (t : str) :
  Re.is_word w = true -> Re.find re_nonword_hyphen pre (w :: t) = None.
Proof.
  intros Hw. unfold Re.find, re_nonword_hyphen. cbn [Re.bt Re.plus_run Re.cset_mem].
  rewrite Hw. reflexivity.
Qed.

Lemma find_nonword_hyphen_last (pre : str) (m : ascii) :
  Re.find re_nonword_hyphen pre [m] = None.
Proof.
  unfold Re.find, re_nonword_hyphen. cbn [Re.bt Re.plus_run Re.cset_mem].
  destruct (negb (Re.is_word m)); reflexivity.
Qed.

Lemma find_nonword_hyphen_before_word (pre : str) (m w : ascii) (t : str) :
  Re.is_word w = true -> Re.find re_nonword_hyphen pre (m :: w :: t) = None.
Proof.
  intros Hw. destruct (word_not_marker w Hw) as [Hh _].
  unfold Re.find, re_nonword_hyphen. cbn [Re.bt Re.plus_run Re.cset_mem].
  rewrite Hw, Hh. cbn [negb]. destruct (negb (Re.is_word m)); reflexivity.
Qed.

Lemma find_nonword_hyphen_hash (pre : str) (w : ascii) (t : str) :
  Re.is_word w = true ->
  exists cp,
    Re.find re_nonword_hyphen pre ("#" :: "-" :: w :: t) = Some (2%nat, cp) /\
    Re.expand [Re.TRef 1] cp = ["#"].
Proof.
  intros Hw.
  destruct (Re.find re_nonword_hyphen pre ("#" :: "-" :: w :: t)) as [[n cp] | ] eqn:E.
  - destruct (find_nonword_hyphen_cases _ _ _ _ E) as (j & Hj & Hl & -> & Ha & Hf & Hx).
    exists cp. destruct j as [ | [ | [ | j]]].
    + lia.
    + split; [reflexivity | exact Hx].
    + cbn [firstn app] in Hf. injection Hf as ->. discriminate Hw.
    + cbn [firstn all_nonword forallb] in Ha. rewrite Hw in Ha.
      cbn [negb andb] in Ha. rewrite !andb_false_r in Ha. discriminate Ha.
  - exfalso. destruct (word_not_marker w Hw) as [Hh _].
    unfold Re.find, re_nonword_hyphen in E. cbn [Re.bt Re.plus_run Re.cset_mem] in E.
    change (Re.is_word "#") with false in E. change (Re.is_word "-") with false in E.
    rewrite Hw, Hh in E. cbn [negb] in E.
    change (Ascii.eqb "-" "-") with true in E. cbv iota in E. discriminate E.
Qed.

Lemma sub_from_two (r : Re.regex) (t : Re.template) (pre : str) (c d : ascii) (s : str)
  (cp : Re.caps) :
  Re.find r pre (c :: d :: s) = Some (2%nat, cp) ->
  Re.sub_from r t pre (c :: d :: s) 0 =
  Re.expand t cp ++ Re.sub_from r t (d :: c :: pre) s 0.
Proof. intros H. cbn [Re.sub_from]. rewrite H. reflexivity. Qed.

Lemma drop_hash_hyphen_cons (c : ascii) (t : str) :
  Ascii.eqb c "#" = false -> drop_hash_hyphen (c :: t) = c :: drop_hash_hyphen t.
Proof. intros H. destruct t; cbn [drop_hash_hyphen]; rewrite ?H; reflexivity. Qed.

Lemma drop_hash_hyphen_before_word (m w : ascii) (t : str) :
  Re.is_word w = true ->
  drop_hash_hyphen (m :: w :: t) = m :: w :: drop_hash_hyphen t.
Proof.
  intros Hw. destruct (word_not_marker w Hw) as [E1 E2].
  rewrite <- (drop_hash_hyphen_cons w t E2).
  cbn [drop_hash_hyphen]. rewrite E1, andb_false_r. reflexivity.
Qed.

(** On a string of phones with well-placed markers, [(\W+)\-] finds the
    hyphens that follow a [#], and nothing else. *)
Lemma sub_from_nonword_hyphen_phones (n : nat) :
  forall (s pre : str) (sf : bstate),
    (length s <= n)%nat ->
    forallb phone_char s = true -> brun BA s = Some sf -> sf <> BD ->
    Re.sub_from re_nonword_hyphen [Re.TRef 1] pre s 0 = drop_hash_hyphen s.
Proof.
  induction n as [ | n IH]; intros s pre sf Hn Hp Hr Hf.
  - destruct s; [reflexivity | cbn [length] in Hn; lia].
  - destruct (marks_cases s sf Hp Hr Hf)
      as [-> | [(w & t & -> & Hw & Pt & Rt) | [-> | [(m & w & t & -> & Hm & Hw & Pt & Rt)
                                                    | (w & t & -> & Hw & Pt & Rt)]]]].
    + reflexivity.
    + cbn [length] in Hn.
      rewrite sub_from_none by (apply find_nonword_hyphen_word; exact Hw).
      rewrite (IH t (w :: pre) sf) by (assumption || lia).
      rewrite drop_hash_hyphen_cons by (apply (word_not_marker w Hw)). reflexivity.
    + rewrite sub_from_none by apply find_nonword_hyphen_last. reflexivity.
    + cbn [length] in Hn.
      rewrite sub_from_none by (apply find_nonword_hyphen_before_word; exact Hw).
      rewrite (IH (w :: t) (m :: pre) sf) by (assumption || (cbn [length]; lia)).
      rewrite !drop_hash_hyphen_before_word by exact Hw.
      rewrite drop_hash_hyphen_cons by (apply (word_not_marker w Hw)). reflexivity.
    + cbn [length] in Hn.
      destruct (find_nonword_hyphen_hash pre w t Hw) as (cp & E & Hx).
      rewrite (sub_from_two _ _ _ _ _ _ _ E), Hx.
      rewrite (IH (w :: t) ("-" :: "#" :: pre) sf) by (assumption || (cbn [length]; lia)).
      reflexivity.
Qed.

Lemma drop_hash_hyphen_lone (n : nat) :
  forall (s : str) (sf : bstate),
    (length s <= n)%nat ->
    forallb phone_char s = true -> brun BA s = Some sf -> sf <> BD ->
    lone_markers (drop_hash_hyphen s) = true.
Proof.
  induction n as [ | n IH]; intros s sf Hn Hp Hr Hf.
  - destruct s; [reflexivity | cbn [length] in Hn; lia].
  - assert (Hw0 : forall w, Re.is_word w = true -> is_marker w = false).
    { intros w Hw. destruct (word_not_marker w Hw) as [E1 E2].
      unfold is_marker. rewrite E1, E2. reflexivity. }
    destruct (marks_cases s sf Hp Hr Hf)
      as [-> | [(w & t & -> & Hw & Pt & Rt) | [-> | [(m & w & t & -> & Hm & Hw & Pt & Rt)
                                                    | (w & t & -> & Hw & Pt & Rt)]]]].
    + reflexivity.
    + cbn [length] in Hn.
      rewrite drop_hash_hyphen_cons by (apply (word_not_marker w Hw)).
      cbn [lone_markers]. rewrite (Hw0 w Hw). cbn [andb negb].
      apply (IH t sf); assumption || lia.
    + reflexivity.
    + cbn [length] in Hn.
      rewrite drop_hash_hyphen_before_word by exact Hw.
      cbn [lone_markers]. rewrite (Hw0 w Hw), andb_false_r. cbn [andb negb].
      pose proof (IH (w :: t) sf ltac:(cbn [length]; lia) Pt Rt Hf) as H.
      rewrite drop_hash_hyphen_cons in H by (apply (word_not_marker w Hw)).
      cbn [lone_markers] in H. rewrite (Hw0 w Hw) in H. exact H.
    + cbn [length] in Hn.
      pose proof (IH (w :: t) sf ltac:(cbn [length]; lia) Pt Rt Hf) as H.
      change (drop_hash_hyphen ("#" :: "-" :: w :: t))
        with ("#" :: drop_hash_hyphen (w :: t)).
      rewrite drop_hash_hyphen_cons in * by (apply (word_not_marker w Hw)).
      cbn [lone_markers] in *. rewrite (Hw0 w Hw) in *. rewrite andb_false_r.
      exact H.
Qed.

(** ** Every phone gets its comma *)

Lemma tables_marks_ok :
  forallb (fun o => forallb (fun n => forallb (fun d => syllable_marks_ok o n d) COD) NUC)
          ONS = true.
Proof. vm_compute. reflexivity. Qed.

Lemma cchunk_marks (c : Z) :
  (c =? 32) = false -> isHangul c = true ->
  brun BA (cchunk c) = Some BA /\ brun BH (cchunk c) = Some BA.
Proof.
  intros E0 E. unfold cchunk, chunk. rewrite E0, E.
  apply isHangul_range in E.
  pose proof (indices_in_range c E) as H. unfold indices in H. cbv zeta in H.
  destruct H as (E1 & E2 & E3 & B1 & B2 & B3).
  change (c - 44032) with (c - 0xAC00) in *.
  rewrite E1 in B1. rewrite E2 in B2. rewrite E3 in B3.
  assert (I1 := entry_In ONS ((c - 44032) / 588) ltac:(cbn [length ONS]; lia)).
  assert (I2 := entry_In NUC ((c - 44032) mod 588 / 28) ltac:(cbn [length NUC]; lia)).
  assert (I3 := entry_In COD ((c - 44032) mod 28) ltac:(cbn [length COD]; lia)).
  pose proof tables_marks_ok as T.
  rewrite forallb_forall in T. specialize (T _ I1).
  rewrite forallb_forall in T. specialize (T _ I2).
  rewrite forallb_forall in T. specialize (T _ I3).
  unfold syllable_marks_ok in T. cbv zeta in T. unfold entry.
  destruct (brun BA _) as [[ | | ] | ]; try discriminate T.
  destruct (brun BH _) as [[ | | ] | ]; try discriminate T.
  split; reflexivity.
Qed.

(** With no two spaces in a row, the markers of the loop's string are
    well placed: no [#] after a marker, no hyphen after a hyphen. *)
Lemma concat_cchunk_marks (g : list Z) :
  forall b : bool,
    spaces_apart b g = true ->
    exists sf : bstate,
      brun (if b then BH else BA) (concat (map cchunk g)) = Some sf /\ sf <> BD.
Proof.
  induction g as [ | c g IH]; intros b H.
  - exists (if b then BH else BA). split; [reflexivity | destruct b; discriminate].
  - cbn [spaces_apart] in H. cbn [map concat]. rewrite brun_app.
    destruct (c =? 32) eqn:E0.
    + apply andb_true_iff in H. destruct H as [Hb H].
      apply negb_true_iff in Hb. subst b.
      replace (cchunk c) with ["#"] by (unfold cchunk, chunk; rewrite E0; reflexivity).
      exact (IH true H).
    + destruct (isHangul c) eqn:E.
      * destruct (cchunk_marks c E0 E) as [H1 H2].
        replace (brun (if b then BH else BA) (cchunk c)) with (Some BA)
          by (destruct b; congruence).
        exact (IH false H).
      * rewrite cchunk_dropped by (rewrite E0, E; reflexivity).
        exact (IH b H).
Qed.

Lemma lone_markers_app_l (a b : str) :
  lone_markers (a ++ b) = true -> lone_markers a = true.
Proof.
  induction a as [ | c a IH]; intros H; [reflexivity | ].
  cbn [app lone_markers] in *. apply andb_true_iff in H. destruct H as [H1 H2].
  rewrite (IH H2), andb_true_r. destruct a as [ | d a].
  - rewrite andb_false_r. reflexivity.
  - exact H1.
Qed.

Lemma bdom_end (sf sf' : bstate) : bdom sf sf' -> sf <> BD -> sf' <> BD.
Proof. intros [-> | ->] H; [exact H | discriminate]. Qed.

Lemma after_loop_marks (phones : str) (sf : bstate) :
  has3 "-" "o" "h" phones = false -> head_ok phones = true ->
  forallb phone_char phones = true ->
  brun BA phones = Some sf -> sf <> BD ->
  exists out : str, after_loop phones = Ok out /\ lone_markers out = true.
Proof.
  intros Hc Hh Hp Hr Hf. unfold after_loop.
  rewrite re_sub_bol_oh by (apply head_ok_opens; exact Hh). cbn [bind].
  rewrite re_sub_hyphen_oh_empty. cbn [bind].
  rewrite replace3_clean by exact Hc.
  change (re_sub "oh-" "ng-" phones)
    with (Ok (Re.sub_from re_oh_hyphen [Re.TLit "n"; Re.TLit "g"; Re.TLit "-"] [] phones 0)).
  cbn [bind].
  set (x4 := Re.sub_from re_oh_hyphen _ [] phones 0).
  assert (P4 : forallb phone_char x4 = true).
  { apply sub_from_chars; [ | exact Hp]. reflexivity. }
  destruct (sub_from_brun _ _ oh_hyphen_len oh_hyphen_marks (length phones)
              phones [] BA BA sf (le_n _) (or_introl eq_refl) Hr) as (s4 & R4 & D4).
  fold x4 in R4. pose proof (bdom_end _ _ D4 Hf) as F4.
  change (re_sub "oh([# ]|$)" "ng" x4)
    with (Ok (Re.sub_from re_oh_end [Re.TLit "n"; Re.TLit "g"] [] x4 0)).
  cbn [bind].
  set (x5 := Re.sub_from re_oh_end _ [] x4 0).
  assert (P5 : forallb phone_char x5 = true).
  { apply sub_from_chars; [ | exact P4]. reflexivity. }
  destruct (sub_from_brun _ _ oh_end_len oh_end_marks (length x4)
              x4 [] BA BA s4 (le_n _) (or_introl eq_refl) R4) as (s5 & R5 & D5).
  fold x5 in R5. pose proof (bdom_end _ _ D5 F4) as F5.
  change (re_sub "(\W+)\-" "\1" x5)
    with (Ok (Re.sub_from re_nonword_hyphen [Re.TRef 1] [] x5 0)).
  cbn [bind].
  rewrite (sub_from_nonword_hyphen_phones (length x5) x5 [] s5 (le_n _) P5 R5 F5).
  pose proof (drop_hash_hyphen_lone (length x5) x5 s5 (le_n _) P5 R5 F5) as L6.
  rewrite re_sub_nonword_end. cbn [bind].
  rewrite re_sub_bol_hyphen. cbn [bind].
  eexists. split; [reflexivity | ].
  destruct (rstrip_nonword_split (drop_hash_hyphen x5)) as (u & Hu & _).
  rewrite Hu in L6. apply lone_markers_app_l in L6.
  destruct (rstrip_nonword (drop_hash_hyphen x5)) as [ | c y]; [reflexivity | ].
  cbn [drop_leading_hyphen]. destruct (Ascii.eqb c "-"); [ | exact L6].
  cbn [lone_markers] in L6. apply andb_true_iff in L6. exact (proj2 L6).
Qed.

(** X14. When no space of the input follows another (the characters that
    are neither spaces nor Hangul syllables left out), [addPhoneBoundary]
    puts a comma after every second word character of what [graph2phone]
    returns, and changes nothing else: every phone gets its comma. *)
Theorem graph2phone_phones_marked (g : list Z) :
  spaces_apart false g = true ->
  exists p : str,
    graph2phone g = Ok p /\ addPhoneBoundary p = Ok (commas false p).
Proof.
  intros Hg. destruct (graph2phone_runs g) as (p & E & Hr & Hp & Hl).
  exists p. split; [exact E | ].
  assert (Hm : lone_markers p = true).
  { rewrite graph2phone_concat in E.
    destruct (concat_cchunk_marks g false Hg) as (sf & Hb & Hf).
    destruct (after_loop_marks (concat (map cchunk g)) sf) as (out & E' & Hm);
      try assumption.
    - exact (proj2 (g2p_loop_concat g [] eq_refl)).
    - apply concat_cchunk_head.
    - exact (proj2 (concat_cchunk_runs g)).
    - congruence. }
  rewrite addPhoneBoundary_segment.
  apply (segment_commas_pairs (length p)); try assumption; [lia | ].
  destruct Hl as [-> | Hl]; [reflexivity | ].
  destruct (word_not_marker _ Hl) as [E1 E2].
  unfold is_marker. rewrite E1, E2. reflexivity.
Qed.

Lemma graph2phone_phones_marked_witness :
  exists p : str,
    graph2phone [0xD55C; 32; 0xAD6D] = Ok p /\
    addPhoneBoundary p = Ok (commas false p).
Proof.
  apply (graph2phone_phones_marked [0xD55C; 32; 0xAD6D]). reflexivity.
Defined.

(** ** Strings without Hangul syllables *)

Lemma whitespace_not_hangul (c : Z) :
  unicode_whitespace c = true -> isHangul c = false.
Proof.
  intros H. destruct (isHangul c) eqn:E; [ | reflexivity].
  apply isHangul_range in E. unfold unicode_whitespace in H.
  rewrite ?orb_true_iff, ?andb_true_iff, ?Z.eqb_eq, ?Z.leb_le in H. lia.
Qed.

Lemma concat_cchunk_hashes (g : list Z) :
  forallb (fun c => negb (isHangul c)) g = true ->
  forallb (Ascii.eqb "#") (concat (map cchunk g)) = true.
Proof.
  induction g as [ | c g IH]; intros H; [reflexivity | ].
  cbn [forallb] in H. apply andb_true_iff in H. destruct H as [Hc H].
  apply negb_true_iff in Hc. cbn [map concat]. rewrite forallb_app, (IH H), andb_true_r.
  unfold cchunk, chunk. rewrite Hc. destruct (c =? 32); reflexivity.
Qed.

Lemma has3_hashes (x y z : ascii) (s : str) :
  Ascii.eqb "#" x = false -> forallb (Ascii.eqb "#") s = true -> has3 x y z s = false.
Proof.
  intros Hx. induction s as [ | a t IH]; intros H; [reflexivity | ].
  cbn [forallb] in H. apply andb_true_iff in H. destruct H as [Ha H].
  apply Ascii.eqb_eq in Ha. subst a. cbn [has3]. rewrite (IH H), orb_false_r.
  destruct t as [ | b [ | c t']]; cbn [starts3]; try reflexivity.
  rewrite Hx. reflexivity.
Qed.

Section Unmatched.

Variables (r : Re.regex) (t : Re.template) (P : ascii -> bool).

(** The pattern has no match that starts in a string of characters that
    satisfy [P]. *)
Hypothesis no_match :
  forall pre s, forallb P s = true -> Re.find r pre s = None.

Lemma sub_from_unmatched (s : str) :
  forall pre : str, forallb P s = true -> Re.sub_from r t pre s 0 = s.
Proof.
  induction s as [ | c s IH]; intros pre H.
  - cbn [Re.sub_from]. rewrite (no_match pre [] H). reflexivity.
  - rewrite sub_from_none by (apply no_match; exact H).
    cbn [forallb] in H. apply andb_true_iff in H. rewrite IH by exact (proj2 H).
    reflexivity.
Qed.

End Unmatched.

Lemma find_oh_end_hashes (pre s : str) :
  forallb (Ascii.eqb "#") s = true -> Re.find re_oh_end pre s = None.
Proof.
  intros H. destruct s as [ | c s]; [reflexivity | ].
  cbn [forallb] in H. apply andb_true_iff in H. destruct H as [Hc _].
  apply Ascii.eqb_eq in Hc. subst c. reflexivity.
Qed.

Lemma find_nonword_hyphen_hashes (pre s : str) :
  forallb (Ascii.eqb "#") s = true -> Re.find re_nonword_hyphen pre s = None.
Proof.
  intros H. destruct (Re.find re_nonword_hyphen pre s) as [[n cp] | ] eqn:E;
    [exfalso | reflexivity].
  destruct (find_nonword_hyphen_cases _ _ _ _ E) as (j & _ & _ & _ & _ & Hf & _).
  rewrite <- (firstn_skipn (S j) s), Hf, !forallb_app in H.
  apply andb_true_iff in H. destruct H as [H _].
  apply andb_true_iff in H. destruct H as [_ H]. discriminate H.
Qed.

Lemma rstrip_nonword_hashes (s : str) :
  forallb (Ascii.eqb "#") s = true -> rstrip_nonword s = [].
Proof.
  intros H. destruct s as [ | c s]; [reflexivity | ].
  cbn [rstrip_nonword].
  replace (all_nonword (c :: s)) with true; [reflexivity | ].
  symmetry. unfold all_nonword. rewrite forallb_forall in *. intros x Hx.
  specialize (H x Hx). apply Ascii.eqb_eq in H. subst x. reflexivity.
Qed.

(** The substitutions that follow the loop leave nothing of a string of
    word boundaries. *)
Lemma after_loop_hashes (phones : str) :
  forallb (Ascii.eqb "#") phones = true -> after_loop phones = Ok [].
Proof.
  intros H. unfold after_loop.
  rewrite re_sub_bol_oh
    by (destruct phones as [ | c u]; [reflexivity | ];
        cbn [forallb] in H; apply andb_true_iff in H; destruct H as [Hc _];
        apply Ascii.eqb_eq in Hc; subst c; reflexivity).
  cbn [bind]. rewrite re_sub_hyphen_oh_empty. cbn [bind].
  rewrite replace3_clean by (apply has3_hashes; [reflexivity | exact H]).
  rewrite re_sub_oh_hyphen. cbn [bind].
  rewrite replace3_clean by (apply has3_hashes; [reflexivity | exact H]).
  change (re_sub "oh([# ]|$)" "ng" phones)
    with (Ok (Re.sub_from re_oh_end [Re.TLit "n"; Re.TLit "g"] [] phones 0)).
  rewrite (sub_from_unmatched _ _ _ find_oh_end_hashes) by exact H. cbn [bind].
  change (re_sub "(\W+)\-" "\1" phones)
    with (Ok (Re.sub_from re_nonword_hyphen [Re.TRef 1] [] phones 0)).
  rewrite (sub_from_unmatched _ _ _ find_nonword_hyphen_hashes) by exact H. cbn [bind].
  rewrite re_sub_nonword_end. cbn [bind].
  rewrite rstrip_nonword_hashes by exact H.
  rewrite re_sub_bol_hyphen. reflexivity.
Qed.

Lemma graph2phone_no_hangul (g : list Z) :
  forallb (fun c => negb (isHangul c)) g = true -> graph2phone g = Ok [].
Proof.
  intros H. rewrite graph2phone_concat.
  apply after_loop_hashes. apply concat_cchunk_hashes. exact H.
Qed.

(** A string without Hangul syllables is converted as the empty string
    is. *)
Lemma runKoG2P_no_hangul (fuel : nat) (g : list Z) :
  forallb (fun c => negb (isHangul c)) g = true -> runKoG2P fuel g = runKoG2P fuel [].
Proof.
  intros H. unfold runKoG2P, graph2prono.
  rewrite (graph2phone_no_hangul g H), (graph2phone_no_hangul [] eq_refl).
  reflexivity.
Qed.

(** C9. The empty string is converted to the empty string, and so is every
    string made of whitespace characters only, spaces or others, as soon as
    one pass of the loop is allowed. *)
Theorem convert_empty_and_blank (n : nat) :
  runKoG2P (S n) [] = Ok [] /\
  forall g : list Z, forallb unicode_whitespace g = true -> runKoG2P (S n) g = Ok [].
Proof.
  split; [apply runKoG2P_nil | ].
  intros g H. rewrite runKoG2P_no_hangul; [apply runKoG2P_nil | ].
  rewrite forallb_forall in *. intros c Hc.
  rewrite (whitespace_not_hangul c (H c Hc)). reflexivity.
Qed.

Lemma convert_empty_and_blank_witness :
  forallb unicode_whitespace [32; 32; 32] = true /\
  runKoG2P 1 [32; 32; 32] = Ok [].
Proof.
  split; [reflexivity | ].
  apply (proj2 (convert_empty_and_blank 0) [32; 32; 32]). reflexivity.
Defined.
